(** * A verification development for [design_storm.py]

    Two parts.  [Storm] embeds the design-storm builder ([build_storm] and the
    temporal-pattern helpers it dispatches to) over the real numbers: each
    floating-point operation is read as the exact real operation, NaN and
    infinities do not arise.  [Noaa] embeds the NOAA text parser and the depth
    lookup over ASCII text and rationals, where every function computes.
    [Cli] embeds the command line: the options as [parse_args] gives them,
    the presets, the DAT writer and [main], which chains the two parts. *)

From Stdlib Require Import Reals Lra Lia ZArith QArith Qround Qabs String Ascii List Bool.
From Stdlib Require Import Numbers.DecimalString.
From Stdlib Require Import Qreals.
From Stdlib Require Lqa.
Import ListNotations.

(** Python exceptions that the embedded code raises; [ReadError] is an
    [OSError] of reading a file. *)
Inductive exn : Type :=
| ValueError (msg : string)
| TypeError (msg : string)
| IndexError (msg : string)
| OverflowError (msg : string)
| ReadError.

(** A computation that returns a value or raises. *)
Inductive result (A : Type) : Type :=
| Ok (a : A)
| Raise (e : exn).
Arguments Ok {A} a.
Arguments Raise {A} e.

Definition bind {A B} (m : result A) (f : A -> result B) : result B :=
  match m with Ok a => f a | Raise e => Raise e end.

Notation "x <- m ;; k" := (bind m (fun x => k))
  (at level 61, m at next level, right associativity).

Definition is_ok {A} (m : result A) : bool :=
  match m with Ok _ => true | Raise _ => false end.

(** Python's [dict] lookup on an association list (first binding wins). *)
Fixpoint assoc {V} (k : string) (l : list (string * V)) : option V :=
  match l with
  | [] => None
  | (k', v) :: r => if String.eqb k k' then Some v else assoc k r
  end.

Module Storm.

Open Scope string_scope.
Open Scope R_scope.

(** ** numpy helpers *)

Definition Rleb (x y : R) : bool := if Rle_dec x y then true else false.

(** [np.linspace(a, b, k)], endpoint included. *)
Definition linspace (a b : R) (k : nat) : list R :=
  match k with
  | O => []
  | 1%nat => [a]
  | _ => map (fun i => a + INR i * ((b - a) / INR (k - 1))) (seq 0 k)
  end.

(** [np.linspace(a, b, k, endpoint=False)]. *)
Definition linspace_open (a b : R) (k : nat) : list R :=
  map (fun i => a + INR i * ((b - a) / INR k)) (seq 0 k).

(** [np.diff]. *)
Fixpoint np_diff (l : list R) : list R :=
  match l with
  | x :: ((y :: _) as r) => (y - x) :: np_diff r
  | _ => []
  end.

(** [arr.sum()]. *)
Definition np_sum (l : list R) : R := fold_right Rplus 0 l.

(** [np.cumsum]. *)
Fixpoint cumsum_from (acc : R) (l : list R) : list R :=
  match l with
  | [] => []
  | x :: r => (acc + x) :: cumsum_from (acc + x) r
  end.
Definition np_cumsum (l : list R) : list R := cumsum_from 0 l.

(** [np.full(n, v)]. *)
Definition np_full (n : nat) (v : R) : list R := repeat v n.

(** [np.clip(x, lo, hi)] = [minimum(maximum(x, lo), hi)]. *)
Definition np_clip (x lo hi : R) : R := Rmin (Rmax x lo) hi.

(** [arr.max()] of a non-empty array. *)
Fixpoint np_max (l : list R) : R :=
  match l with
  | [] => 0
  | [x] => x
  | x :: r => Rmax x (np_max r)
  end.

(** [np.argmax]: index of the first maximum. *)
Fixpoint argmax_go (l : list R) (i best_i : nat) (best : R) : nat :=
  match l with
  | [] => best_i
  | x :: r => if Rlt_dec best x then argmax_go r (S i) i x
              else argmax_go r (S i) best_i best
  end.
Definition np_argmax (l : list R) : nat :=
  match l with
  | [] => 0
  | x :: r => argmax_go r 1 0 x
  end.

(** [np.roll(a, s)]: element [i] moves to index [(i + s) mod n]. *)
Definition np_roll (l : list R) (s : Z) : list R :=
  let n := length l in
  let k := Z.to_nat (s mod Z.of_nat n) in
  (skipn (n - k) l ++ firstn (n - k) l)%list.

(** [np.interp(x, xp, fp)] for one point, as linear interpolation between
    consecutive sample points, clamped to [fp[0]] on the left and to the last
    value on the right.  numpy computes the same value when [xp] is increasing
    (its result is unspecified otherwise). *)
Fixpoint interp_seg (x x0 f0 : R) (pts : list (R * R)) : R :=
  match pts with
  | [] => f0
  | (x1, f1) :: rest =>
      if Rlt_dec x x1 then f0 + (x - x0) * ((f1 - f0) / (x1 - x0))
      else interp_seg x x1 f1 rest
  end.

Definition np_interp (x : R) (xp fp : list R) : R :=
  match combine xp fp with
  | [] => 0
  | (x0, f0) :: rest => if Rlt_dec x x0 then f0 else interp_seg x x0 f0 rest
  end.

(** [int(math.ceil(r))], through the Standard Library's [up]
    ([up r] is the integer [z] with [r < z <= r + 1]). *)
Definition math_floor (r : R) : Z := (up r - 1)%Z.
Definition math_ceil (r : R) : Z := (- math_floor (- r))%Z.

(** [PROPORTION_TABLES["scs_type_i"]], in units of 1/10000 (241 values). *)
Definition scs_type_i_e4 : list Z := [
  0; 17; 35; 52; 70; 87; 105; 122; 139; 157; 174; 192;
  210; 227; 245; 262; 280; 297; 315; 332; 350; 368; 386; 404;
  423; 442; 461; 480; 500; 520; 540; 561; 582; 603; 625; 647;
  669; 691; 714; 737; 760; 784; 807; 831; 855; 878; 902; 926;
  951; 975; 1000; 1024; 1049; 1073; 1098; 1123; 1148; 1174; 1199; 1225;
  1250; 1276; 1303; 1332; 1361; 1391; 1423; 1456; 1489; 1524; 1560; 1597;
  1633; 1671; 1708; 1746; 1784; 1823; 1861; 1901; 1940; 1982; 2027; 2077;
  2132; 2190; 2252; 2318; 2388; 2462; 2540; 2623; 2714; 2812; 2917; 3030;
  3194; 3454; 3878; 4632; 5150; 5322; 5476; 5612; 5730; 5830; 5919; 6003;
  6083; 6159; 6230; 6298; 6365; 6430; 6493; 6555; 6615; 6674; 6731; 6786;
  6840; 6892; 6944; 6995; 7044; 7092; 7140; 7186; 7232; 7276; 7320; 7362;
  7404; 7444; 7484; 7523; 7560; 7596; 7632; 7667; 7700; 7733; 7766; 7798;
  7830; 7862; 7894; 7926; 7958; 7989; 8020; 8051; 8082; 8112; 8142; 8173;
  8202; 8232; 8262; 8291; 8320; 8349; 8378; 8406; 8434; 8462; 8490; 8518;
  8546; 8573; 8600; 8627; 8654; 8680; 8706; 8733; 8758; 8784; 8810; 8835;
  8860; 8885; 8910; 8934; 8958; 8982; 9006; 9030; 9054; 9077; 9100; 9123;
  9146; 9168; 9190; 9212; 9234; 9256; 9278; 9299; 9320; 9341; 9362; 9382;
  9402; 9423; 9442; 9462; 9482; 9501; 9520; 9539; 9558; 9576; 9594; 9613;
  9630; 9648; 9666; 9683; 9700; 9717; 9734; 9750; 9766; 9783; 9798; 9814;
  9830; 9845; 9860; 9875; 9890; 9904; 9918; 9933; 9946; 9960; 9974; 9987;
  10000]%Z.

(** [PROPORTION_TABLES["scs_type_ia"]], in units of 1/10000 (49 values). *)
Definition scs_type_ia_e4 : list Z := [
  0; 100; 220; 360; 510; 670; 830; 990; 1160; 1350; 1560; 1790;
  2040; 2330; 2680; 3100; 4250; 4800; 5200; 5500; 5770; 6010; 6230; 6440;
  6640; 6830; 7010; 7190; 7360; 7530; 7690; 7850; 8000; 8150; 8300; 8440;
  8580; 8710; 8840; 8960; 9080; 9200; 9320; 9440; 9560; 9670; 9780; 9890;
  10000]%Z.

(** [PROPORTION_TABLES["scs_type_ii"]], in units of 1/10000 (241 values). *)
Definition scs_type_ii_e4 : list Z := [
  0; 10; 20; 30; 41; 51; 62; 72; 83; 94; 105; 116;
  127; 138; 150; 161; 173; 184; 196; 208; 220; 232; 244; 257;
  269; 281; 294; 306; 319; 332; 345; 358; 371; 384; 398; 411;
  425; 439; 452; 466; 480; 494; 508; 523; 538; 553; 568; 583;
  598; 614; 630; 646; 662; 679; 696; 712; 730; 747; 764; 782;
  800; 818; 836; 855; 874; 892; 912; 931; 950; 970; 990; 1010;
  1030; 1051; 1072; 1093; 1114; 1135; 1156; 1178; 1200; 1222; 1246; 1270;
  1296; 1322; 1350; 1379; 1408; 1438; 1470; 1502; 1534; 1566; 1598; 1630;
  1663; 1697; 1733; 1771; 1810; 1851; 1895; 1941; 1989; 2040; 2094; 2152;
  2214; 2280; 2350; 2427; 2513; 2609; 2715; 2830; 3068; 3544; 4308; 5679;
  6630; 6820; 6986; 7130; 7252; 7350; 7434; 7514; 7588; 7656; 7720; 7780;
  7836; 7890; 7942; 7990; 8036; 8080; 8122; 8162; 8200; 8237; 8273; 8308;
  8342; 8376; 8409; 8442; 8474; 8505; 8535; 8565; 8594; 8622; 8649; 8676;
  8702; 8728; 8753; 8777; 8800; 8823; 8845; 8868; 8890; 8912; 8934; 8955;
  8976; 8997; 9018; 9038; 9058; 9078; 9097; 9117; 9136; 9155; 9173; 9192;
  9210; 9228; 9245; 9263; 9280; 9297; 9313; 9330; 9346; 9362; 9377; 9393;
  9408; 9423; 9438; 9452; 9466; 9480; 9493; 9507; 9520; 9533; 9546; 9559;
  9572; 9584; 9597; 9610; 9622; 9635; 9647; 9660; 9672; 9685; 9697; 9709;
  9722; 9734; 9746; 9758; 9770; 9782; 9794; 9806; 9818; 9829; 9841; 9853;
  9864; 9876; 9887; 9899; 9910; 9922; 9933; 9944; 9956; 9967; 9978; 9989;
  10000]%Z.

(** [PROPORTION_TABLES["scs_type_iii"]], in units of 1/10000 (241 values). *)
Definition scs_type_iii_e4 : list Z := [
  0; 10; 20; 30; 40; 50; 60; 70; 80; 90; 100; 110;
  120; 130; 140; 150; 160; 170; 180; 190; 200; 210; 220; 231;
  241; 252; 263; 274; 285; 296; 308; 319; 331; 343; 355; 367;
  379; 392; 404; 417; 430; 443; 456; 470; 483; 497; 511; 525;
  539; 553; 567; 582; 597; 612; 627; 642; 657; 673; 688; 704;
  720; 736; 753; 770; 788; 806; 825; 844; 864; 884; 905; 926;
  948; 970; 993; 1016; 1040; 1064; 1089; 1114; 1140; 1167; 1194; 1223;
  1253; 1284; 1317; 1350; 1385; 1421; 1458; 1496; 1535; 1575; 1617; 1659;
  1703; 1748; 1794; 1842; 1890; 1940; 1993; 2048; 2105; 2165; 2227; 2292;
  2359; 2428; 2500; 2578; 2664; 2760; 2866; 2980; 3143; 3394; 3733; 4166;
  5000; 5840; 6267; 6606; 6857; 7020; 7134; 7240; 7336; 7422; 7500; 7572;
  7641; 7708; 7773; 7835; 7895; 7952; 8007; 8060; 8110; 8158; 8206; 8252;
  8297; 8341; 8383; 8425; 8465; 8504; 8543; 8579; 8615; 8650; 8683; 8716;
  8747; 8777; 8806; 8833; 8860; 8886; 8911; 8936; 8960; 8984; 9007; 9030;
  9052; 9074; 9095; 9116; 9136; 9156; 9175; 9194; 9212; 9230; 9247; 9264;
  9280; 9296; 9312; 9327; 9343; 9358; 9373; 9388; 9403; 9418; 9433; 9447;
  9461; 9475; 9489; 9503; 9517; 9530; 9544; 9557; 9570; 9583; 9596; 9609;
  9621; 9634; 9646; 9658; 9670; 9682; 9694; 9706; 9718; 9729; 9741; 9752;
  9764; 9775; 9786; 9797; 9808; 9818; 9829; 9839; 9850; 9860; 9870; 9880;
  9890; 9900; 9909; 9919; 9928; 9938; 9947; 9956; 9965; 9974; 9983; 9991;
  10000]%Z.


(** ** Registries *)

Definition of_e4 (l : list Z) : list R := map (fun z => IZR z / 10000) l.

(** [np.diff] on the integer numerators. *)
Fixpoint z_diff (l : list Z) : list Z :=
  match l with
  | x :: ((y :: _) as r) => (y - x)%Z :: z_diff r
  | _ => []
  end.

Definition PROPORTION_TABLES : list (string * list R) :=
  [("scs_type_i", of_e4 scs_type_i_e4);
   ("scs_type_ia", of_e4 scs_type_ia_e4);
   ("scs_type_ii", of_e4 scs_type_ii_e4);
   ("scs_type_iii", of_e4 scs_type_iii_e4)].

Definition BETA_PRESETS : list (string * (R * R)) :=
  [("scs_type_i", (2, 5)); ("scs_type_ia", (2, 6));
   ("scs_type_ii", (3.5, 6)); ("scs_type_iii", (5, 2));
   ("huff_q1", (1.5, 5)); ("huff_q2", (2, 3));
   ("huff_q3", (3, 2)); ("huff_q4", (5, 1.5));
   ("user", (1, 1))].

(** ** Temporal patterns *)

(** [_storm_from_table(depth, n, table)]. *)
Definition storm_from_table (depth : R) (n : nat) (table : list R) : result (list R) :=
  let arr := table in
  if (length arr <? 2)%nat then
    Raise (ValueError "Dimensionless table must have at least two values")
  else if negb (forallb (fun d => Rleb 0 d) (np_diff arr)) then
    Raise (ValueError "Dimensionless table must be non-decreasing")
  else
    let arr := if Req_dec_T (last arr 0) 0 then linspace 0 1 (length arr) else arr in
    let norm := map (fun v => v / last arr 0) arr in
    let grid := linspace 0 1 (n + 1) in
    let cum := map (fun g => np_interp g (linspace 0 1 (length norm)) norm) grid in
    let inc := np_diff cum in
    let s := np_sum inc in
    if Rle_dec s 0 then Ok (np_full n (depth / INR (Nat.max n 1)))
    else Ok (map (fun v => v / s * depth) inc).

(** The unnormalised log-density of [_beta_pdf] at one sample point. *)
Definition beta_logpdf (alpha beta x : R) : R :=
  (alpha - 1) * ln (np_clip x 1e-12 1) + (beta - 1) * ln (np_clip (1 - x) 1e-12 1).

(** [_beta_pdf(n, alpha, beta)] (mid-bin sampling, no shift). *)
Definition beta_pdf (n : nat) (alpha beta : R) : list R :=
  let x := map (fun v => v + 0.5 / INR n) (linspace_open 0 1 n) in
  let pdf := map (fun xi => exp (beta_logpdf alpha beta xi)) x in
  let s := np_sum pdf in
  if Rle_dec s 0 then np_full n (1 / INR n)
  else map (fun v => v / s) pdf.

(** [beta_curve(n, alpha, beta, peak)]. *)
Definition beta_curve (n : nat) (alpha beta : R) (peak : Z) : list R :=
  let pdf := beta_pdf n alpha beta in
  if (n <=? 0)%nat then pdf
  else
    let shift := ((peak - Z.of_nat (np_argmax pdf)) mod Z.of_nat n)%Z in
    if (shift =? 0)%Z then pdf else np_roll pdf shift.

(** [if c.max() > 1: c = c / c.max()]. *)
Definition normalize_col (c : list R) : list R :=
  if Rlt_dec 1 (np_max c) then map (fun v => v / np_max c) c else c.

(** The file system seen by [_user_pdf]: what [pd.read_csv(path)] followed
    by [np.asarray(df.iloc[:, k], dtype=float)] for [k = 0, 1] gives, either
    the data rows as pairs of floats, or the exception raised on the way (an
    [OSError] for a file that cannot be opened, pandas' [EmptyDataError] or
    [ParserError], both [ValueError]s, an [IndexError] for a file with one
    column, a [ValueError] for a cell that is not a number).  A blank cell,
    read as NaN, is outside the real-number reading. *)
Definition filesystem := string -> result (list (R * R)).

(** [_user_pdf(n, path)]. *)
Definition user_pdf (fs : filesystem) (n : nat) (path : string) : result (list R) :=
  match fs path with
  | Raise e => Raise e
  | Ok [] =>
      Raise (ValueError "zero-size array to reduction operation maximum which has no identity")
  | Ok rows =>
      let t := normalize_col (map fst rows) in
      let c := normalize_col (map snd rows) in
      let grid := linspace 0 1 (n + 1) in
      let cum := map (fun g => np_interp g t c) grid in
      let pdf := np_diff cum in
      let s := np_sum pdf in
      if Rle_dec s 0 then Ok (np_full n (1 / INR n))
      else Ok (map (fun v => v / s) pdf)
  end.

(** ** [build_storm] *)

(** The returned DataFrame, one list per column; [timestamp] is present when a
    start is given.  Calendar times are minutes on a real time axis. *)
Record frame : Type := {
  time_min : list R;
  intensity_in_hr : list R;
  volume_in : list R;
  cumulative_in : list R;
  timestamp : option (list R)
}.

Definition bin_count (duration_hr timestep_min : R) : nat :=
  Z.to_nat (Z.max 1 (math_ceil (duration_hr * 60 / timestep_min))).

Definition build_storm (fs : filesystem) (depth duration_hr timestep_min : R)
    (distribution : string) (peak : option R) (custom_curve_path : option string)
    (start : option R) : result frame :=
  if Rle_dec duration_hr 0 then Raise (ValueError "Duration and timestep must be positive")
  else if Rle_dec timestep_min 0 then Raise (ValueError "Duration and timestep must be positive")
  else
  let n := bin_count duration_hr timestep_min in
  incremental <-
    match assoc distribution PROPORTION_TABLES with
    | Some table => storm_from_table depth n table
    | None =>
        if String.eqb distribution "user" then
          match custom_curve_path with
          | None => Raise (ValueError "Custom curve path required for 'user' distribution")
          | Some p => pdf <- user_pdf fs n p ;; Ok (map (fun v => depth * v) pdf)
          end
        else
          match assoc distribution BETA_PRESETS with
          | None => Raise (ValueError ("Unknown distribution: " ++ distribution)%string)
          | Some (a, b) => Ok (map (fun v => depth * v) (beta_pdf n a b))
          end
    end ;;
  let intens :=
    if (n =? 1)%nat then [depth / Rmax duration_hr 1e-12]
    else map (fun v => v / (timestep_min / 60)) incremental in
  let cumulative := np_cumsum incremental in
  let minutes := map (fun i => INR i * timestep_min) (seq 0 n) in
  Ok {| time_min := minutes;
        intensity_in_hr := intens;
        volume_in := incremental;
        cumulative_in := cumulative;
        timestamp := option_map (fun s => map (fun m => s + m) minutes) start |}.

(** ** Predicates used in the statements *)

(** A distribution name [build_storm] knows: an official table or a Beta
    preset (["user"] is among the presets). *)
Definition registered (dist : string) : Prop :=
  assoc dist PROPORTION_TABLES <> None \/ assoc dist BETA_PRESETS <> None.



(** Consecutive elements are [<=]. *)
Fixpoint nondecr (l : list R) : Prop :=
  match l with
  | x :: ((y :: _) as r) => x <= y /\ nondecr r
  | _ => True
  end.

(** Consecutive elements are [<]. *)
Fixpoint incr (l : list R) : Prop :=
  match l with
  | x :: ((y :: _) as r) => x < y /\ incr r
  | _ => True
  end.

(** Interpolation nodes after [(x0, f0)]: abscissae increasing, ordinates
    non-decreasing. *)
Fixpoint chain (x0 f0 : R) (pts : list (R * R)) : Prop :=
  match pts with
  | [] => True
  | (x1, f1) :: r => x0 < x1 /\ f0 <= f1 /\ chain x1 f1 r
  end.

(** The midpoint of bin [i] of [n] bins on [0, 1]: [(i + 0.5) / n]. *)
Definition mid_bin (n i : nat) : R := (INR i + 0.5) / INR n.

(** A function applied to the value of a computation that did not raise. *)
Definition map_result {A B} (f : A -> B) (m : result A) : result B :=
  match m with Ok a => Ok (f a) | Raise e => Raise e end.

(** The frame with its depth columns multiplied by [c]. *)
Definition scale_frame (c : R) (f : frame) : frame :=
  {| time_min := time_min f;
     intensity_in_hr := map (fun v => c * v) (intensity_in_hr f);
     volume_in := map (fun v => c * v) (volume_in f);
     cumulative_in := map (fun v => c * v) (cumulative_in f);
     timestamp := timestamp f |}.

End Storm.

Module Noaa.

Open Scope string_scope.
Open Scope list_scope.
Open Scope Q_scope.

(** ** Characters

    Text is read as 7-bit ASCII; the character classes are Python's [str]
    classes restricted to it. *)

Definition code (c : ascii) : nat := nat_of_ascii c.

Definition in_range (lo hi : nat) (c : ascii) : bool :=
  ((lo <=? code c) && (code c <=? hi))%nat.

(** [str.isspace], and the regex class [\s]. *)
Definition is_space (c : ascii) : bool := in_range 9 13 c || in_range 28 32 c.

(** The characters [str.splitlines] breaks at. *)
Definition is_line_break (c : ascii) : bool := in_range 10 13 c || in_range 28 30 c.

(** [\d]. *)
Definition is_digit (c : ascii) : bool := in_range 48 57 c.

(** [\w]. *)
Definition is_word (c : ascii) : bool :=
  is_digit c || in_range 65 90 c || in_range 97 122 c || (code c =? 95)%nat.

(** [str.lower] on one character. *)
Definition lower (c : ascii) : ascii :=
  if in_range 65 90 c then ascii_of_nat (code c + 32) else c.

Definition chr_eqb (a b : ascii) : bool := Ascii.eqb a b.

Definition lit (s : string) : list ascii := list_ascii_of_string s.

(** ** String methods *)

Fixpoint drop_while (p : ascii -> bool) (s : list ascii) : list ascii :=
  match s with
  | [] => []
  | c :: r => if p c then drop_while p r else s
  end.

Fixpoint span (p : ascii -> bool) (s : list ascii) : list ascii * list ascii :=
  match s with
  | [] => ([], [])
  | c :: r => if p c then let (a, b) := span p r in (c :: a, b) else ([], s)
  end.

(** [s.strip()], [s.rstrip()], [s.rstrip(":")]. *)
Definition strip (s : list ascii) : list ascii :=
  rev (drop_while is_space (rev (drop_while is_space s))).
Definition rstrip_space (s : list ascii) : list ascii := rev (drop_while is_space (rev s)).
Definition rstrip_colon (s : list ascii) : list ascii :=
  rev (drop_while (chr_eqb ":"%char) (rev s)).

(** [txt.splitlines()]: CR LF is one break, a final break ends the last
    line. *)
Fixpoint splitlines_go (s cur : list ascii) : list (list ascii) :=
  match s with
  | [] => match cur with [] => [] | _ => [rev cur] end
  | c :: r =>
      if is_line_break c then
        match r with
        | d :: r' =>
            if ((code c =? 13) && (code d =? 10))%nat then rev cur :: splitlines_go r' []
            else rev cur :: splitlines_go r []
        | [] => [rev cur]
        end
      else splitlines_go r (c :: cur)
  end.
Definition splitlines (s : list ascii) : list (list ascii) := splitlines_go s [].

(** [s] with the prefix [p] removed, if [s] starts with [p]. *)
Fixpoint prefix_rest (p s : list ascii) : option (list ascii) :=
  match p, s with
  | [], _ => Some s
  | a :: p', b :: s' => if chr_eqb a b then prefix_rest p' s' else None
  | _ :: _, [] => None
  end.

Definition starts_with (p s : list ascii) : bool :=
  match prefix_rest p s with Some _ => true | None => false end.

(** The text after the first occurrence of [sep] in [s]; [sep in s] is
    [after_first sep s <> None]. *)
Fixpoint after_first (sep s : list ascii) : option (list ascii) :=
  match prefix_rest sep s with
  | Some r => Some r
  | None => match s with [] => None | _ :: s' => after_first sep s' end
  end.

Definition contains (sep s : list ascii) : bool :=
  match after_first sep s with Some _ => true | None => false end.

(** [s.split(sep)[-1]] for a non-empty [sep]: each occurrence shortens the
    text, so [length s + 1] rounds are enough. *)
Fixpoint last_piece (fuel : nat) (sep s : list ascii) : list ascii :=
  match fuel with
  | O => s
  | S f => match after_first sep s with Some r => last_piece f sep r | None => s end
  end.
Definition split_last (sep s : list ascii) : list ascii := last_piece (S (length s)) sep s.

(** ** Numbers *)

(** [int(ds)] for a string of decimal digits. *)
Definition digits_value (ds : list ascii) : Z :=
  fold_left (fun acc c => acc * 10 + Z.of_nat (code c - 48))%Z ds 0%Z.

(** [str(z)] for an integer. *)
Definition string_of_Z (z : Z) : string := NilEmpty.string_of_int (Z.to_int z).

(** [m * 10^(x - k)] as an exact fraction. *)
Definition scaled (m : Z) (k : nat) (x : Z) : Q :=
  if (0 <=? x)%Z then Qmake (m * 10 ^ x) (Z.to_pos (10 ^ Z.of_nat k))
  else Qmake m (Z.to_pos (10 ^ (Z.of_nat k - x))).

(** [[-+]?]. *)
Definition sign_part (s : list ascii) : list ascii * list ascii :=
  match s with
  | c :: r => if chr_eqb c "-"%char || chr_eqb c "+"%char then ([c], r) else ([], s)
  | [] => ([], [])
  end.

Definition is_minus (sg : list ascii) : bool :=
  match sg with [c] => chr_eqb c "-"%char | _ => false end.

(** [float(t)] on a decimal literal [[-+]?D*(.D* )?([eE][-+]?D+)?] with at
    least one digit before the exponent; [None] is the failure that the
    parser turns into NaN. *)
Definition float_of_token (t : list ascii) : option Q :=
  let (sg, r) := sign_part t in
  let (d, r1) := span is_digit r in
  let '(f, r2) :=
    match r1 with
    | c :: r' => if chr_eqb c "."%char then span is_digit r' else ([], r1)
    | [] => ([], [])
    end in
  let ex :=
    match r2 with
    | [] => Some 0%Z
    | e :: r3 =>
        if chr_eqb e "e"%char || chr_eqb e "E"%char then
          let (esg, r4) := sign_part r3 in
          match span is_digit r4 with
          | ((_ :: _) as ds, []) =>
              Some (if is_minus esg then (- digits_value ds)%Z else digits_value ds)
          | _ => None
          end
        else None
    end in
  match d, f, ex with
  | [], [], _ => None
  | _, _, None => None
  | _, _, Some x =>
      let m := digits_value (d ++ f) in
      Some (scaled (if is_minus sg then (- m)%Z else m) (length f) x)
  end.

(** ** Regular expressions *)

(** One match of [[-+]?(?:\d*\.\d+|\d+)(?:[eE][-+]?\d+)?] at the start of
    [s]: the matched text and the rest. *)
Definition mantissa (s : list ascii) : option (list ascii * list ascii) :=
  let (d, r) := span is_digit s in
  let whole := match d with [] => None | _ => Some (d, r) end in
  match r with
  | c :: r' =>
      if chr_eqb c "."%char then
        match span is_digit r' with
        | ([], _) => whole
        | (f, r'') => Some (d ++ c :: f, r'')
        end
      else whole
  | [] => whole
  end.

Definition exponent (s : list ascii) : list ascii * list ascii :=
  match s with
  | e :: r =>
      if chr_eqb e "e"%char || chr_eqb e "E"%char then
        let (sg, r1) := sign_part r in
        match span is_digit r1 with
        | ([], _) => ([], s)
        | (ds, r2) => (e :: sg ++ ds, r2)
        end
      else ([], s)
  | [] => ([], [])
  end.

Definition match_number (s : list ascii) : option (list ascii * list ascii) :=
  let (sg, r) := sign_part s in
  match mantissa r with
  | Some (m, r1) => let (e, r2) := exponent r1 in Some (sg ++ m ++ e, r2)
  | None => None
  end.

(** [re.findall] of the number pattern: every match consumes a character, so
    [length s] rounds are enough. *)
Fixpoint findall_go (fuel : nat) (s : list ascii) : list (list ascii) :=
  match fuel with
  | O => []
  | S f =>
      match s with
      | [] => []
      | _ :: r =>
          match match_number s with
          | Some (tok, r') => tok :: findall_go f r'
          | None => findall_go f r
          end
      end
  end.
Definition num_tokens (s : list ascii) : list (list ascii) := findall_go (length s) s.

(** The maximal runs of [\w] characters. *)
Fixpoint words_go (s cur : list ascii) : list (list ascii) :=
  match s with
  | [] => match cur with [] => [] | _ => [rev cur] end
  | c :: r =>
      if is_word c then words_go r (c :: cur)
      else match cur with [] => words_go r [] | _ => rev cur :: words_go r [] end
  end.

(** [re.findall] of the pattern [\b\d+\b]: a match starts and ends at a word boundary
    and holds digits only, so the matches are the words made of digits. *)
Definition digit_words (s : list ascii) : list (list ascii) :=
  filter (forallb is_digit) (words_go s []).

(** [re.match] of the line pattern: [^([^:]+):\s*] and then the rest of the
    line as the second group.  It gives the label before the first colon and
    the text after it without its leading spaces (a line holds no line
    break, so the rest of the line is all of it). *)
Fixpoint split_colon (s : list ascii) : option (list ascii * list ascii) :=
  match s with
  | [] => None
  | c :: r =>
      if chr_eqb c ":"%char then Some ([], r)
      else match split_colon r with Some (a, b) => Some (c :: a, b) | None => None end
  end.

Definition line_match (ln : list ascii) : option (list ascii * list ascii) :=
  match split_colon ln with
  | Some ((_ :: _) as label, after) => Some (label, drop_while is_space after)
  | _ => None
  end.

(** [_DURATION_RE.match]:
    [^\s*(\d+(?:\.\d+)?)\s*[- ]\s*(min|minute|minutes|hr|hour|hours|day|days)\s*:?$],
    case-insensitive.  It gives the groups [num] (as its value) and [unit].
    The digits and the fraction are maximal; the run of spaces and dashes
    between number and unit must read [\s*[- ]\s*]; the unit is followed by
    spaces and an optional colon up to the end, or up to a final line feed
    (where [$] also matches). *)
Definition frac_part (s : list ascii) : list ascii * list ascii :=
  match s with
  | c :: r =>
      if chr_eqb c "."%char then
        match span is_digit r with
        | ([], _) => ([], s)
        | (f, r') => (f, r')
        end
      else ([], s)
  | [] => ([], [])
  end.

Definition sep_ok (r : list ascii) : bool :=
  let dashes := length (filter (chr_eqb "-"%char) r) in
  (dashes =? 1)%nat || ((dashes =? 0)%nat && existsb (chr_eqb " "%char) r).

Definition unit_names : list string :=
  ["min"; "minute"; "minutes"; "hr"; "hour"; "hours"; "day"; "days"].

Definition unit_tail (c : list ascii) : option (list ascii) :=
  let c' := match rev c with x :: r => if chr_eqb x ":"%char then rev r else c | [] => c end in
  let u := rstrip_space c' in
  if existsb (String.eqb (string_of_list_ascii (map lower u))) unit_names then Some u
  else None.

Definition unit_group (c : list ascii) : option (list ascii) :=
  match unit_tail c with
  | Some u => Some u
  | None =>
      match rev c with
      | x :: r => if (code x =? 10)%nat then unit_tail (rev r) else None
      | [] => None
      end
  end.

Definition dur_match (s : list ascii) : option (Q * list ascii) :=
  let (d, s2) := span is_digit (drop_while is_space s) in
  match d with
  | [] => None
  | _ =>
      let (f, s3) := frac_part s2 in
      let (sep, s4) := span (fun c => is_space c || chr_eqb c "-"%char) s3 in
      if sep_ok sep then
        match unit_group s4 with
        | Some u => Some (scaled (digits_value (d ++ f)) (length f) 0, u)
        | None => None
        end
      else None
  end.

(** ** [_parse_noaa_text_to_df] *)

(** A parsed table: column labels, row labels and rows of cells, a missing
    cell (NaN) being [None]. *)
Record DF : Type := {
  columns : list string;
  index : list string;
  data : list (list (option Q))
}.

Definition ARI : list ascii := lit "ARI (years)".

(** [[ln.strip() for ln in txt.splitlines() if ln.strip()]]. *)
Definition noaa_lines (txt : string) : list (list ascii) :=
  filter (fun ln => match ln with [] => false | _ => true end) (map strip (splitlines (lit txt))).

(** [str(int(x))] for a column token. *)
Definition col_label (w : list ascii) : string := string_of_Z (digits_value w).

(** The loop over the lines: the label and the row of each duration line. *)
Fixpoint parse_rows (k : nat) (lines : list (list ascii)) : list (string * list (option Q)) :=
  match lines with
  | [] => []
  | ln :: r =>
      match line_match ln with
      | None => parse_rows k r
      | Some (raw, rest) =>
          let label := strip raw in
          match dur_match label with
          | None => parse_rows k r
          | Some _ =>
              let nums := num_tokens rest in
              let row := (map float_of_token (firstn k nums) ++ repeat None (k - length nums))%list in
              (string_of_list_ascii (rstrip_colon label), row) :: parse_rows k r
          end
      end
  end.

Definition parse_noaa_text (txt : string) : option DF :=
  let lines := noaa_lines txt in
  match find (contains ARI) lines with
  | None => None
  | Some header =>
      let cols := map col_label (filter (forallb is_digit) (digit_words (split_last ARI header))) in
      match cols with
      | [] => None
      | _ =>
          let rows := parse_rows (length cols) lines in
          match rows with
          | [] => None
          | _ => Some {| columns := cols; index := map fst rows; data := map snd rows |}
          end
      end
  end.

(** ** [fetch_noaa_depth] *)

(** [_label_to_minutes]; [None] is NaN. *)
Definition label_to_minutes (label : string) : option Q :=
  match dur_match (rstrip_colon (strip (lit label))) with
  | None => None
  | Some (num, u) =>
      let unit := map lower u in
      if starts_with (lit "min") unit then Some num
      else if starts_with (lit "hr") unit || starts_with (lit "hour") unit then Some (num * 60)
      else Some (num * 1440)
  end.

(** One entry of [diffs] in [_nearest_row_index]; [None] is [inf]. *)
Definition row_distance (target : Q) (label : string) : option Q :=
  match label_to_minutes label with
  | Some m => Some (Qabs (m - target))
  | None => None
  end.

(** [<] and [==] on floats that are finite or [inf]. *)
Definition ext_lt (a b : option Q) : bool :=
  match a, b with
  | Some x, Some y => negb (Qle_bool y x)
  | Some _, None => true
  | None, _ => false
  end.

Definition ext_eq (a b : option Q) : bool :=
  match a, b with
  | Some x, Some y => Qeq_bool x y
  | None, None => true
  | _, _ => false
  end.

(** [min(diffs)]: an element replaces the current minimum when it is smaller
    (an empty table never gets here). *)
Definition py_min (l : list (option Q)) : option Q :=
  match l with
  | [] => None
  | x :: r => fold_left (fun cur y => if ext_lt y cur then y else cur) r x
  end.

(** [diffs.index(m)]. *)
Fixpoint index_of (m : option Q) (l : list (option Q)) : nat :=
  match l with
  | [] => 0
  | x :: r => if ext_eq x m then 0 else S (index_of m r)
  end.

Definition nearest_row_index (df : DF) (target_minutes : Q) : nat :=
  let diffs := map (row_distance target_minutes) (index df) in
  index_of (py_min diffs) diffs.

(** [df.empty]. *)
Definition df_empty (df : DF) : bool :=
  match index df, columns df with
  | [], _ | _, [] => true
  | _, _ => false
  end.

(** The positions of a label among the columns. *)
Fixpoint positions_from (i : nat) (key : string) (cols : list string) : list nat :=
  match cols with
  | [] => []
  | c :: r => if String.eqb c key then i :: positions_from (S i) key r
              else positions_from (S i) key r
  end.
Definition positions (key : string) (cols : list string) : list nat := positions_from 0 key cols.

(** Python's [round] on a float: to the nearest integer, halves to even. *)
Definition round_half_even (q : Q) : Z :=
  let f := Qfloor q in
  let r := q - inject_Z f in
  if negb (Qle_bool (1 # 2) r) then f
  else if negb (Qle_bool r (1 # 2)) then (f + 1)%Z
  else if Z.even f then f else (f + 1)%Z.

(** [fetch_noaa_depth], the table download being [fetch_table]. *)
Definition fetch_noaa_depth (fetch_table : Q -> Q -> option DF)
    (lat lon duration_hr ari : Q) : result (option Q) :=
  let try_minutes := duration_hr * 60 in
  match fetch_table lat lon with
  | None => Ok None
  | Some df =>
      if df_empty df then Ok None
      else
        let ari_key := string_of_Z (round_half_even ari) in
        if negb (existsb (String.eqb ari_key) (columns df)) then Ok None
        else
          let row_i := nearest_row_index df try_minutes in
          let row := nth row_i (data df) [] in
          (* [df.iloc[row_i][ari_key]] is a scalar for a unique label and a
             Series otherwise, which [float] refuses. *)
          match positions ari_key (columns df) with
          | [j] => match nth j row None with
                   | Some v => Ok (Some v)
                   | None => Ok None
                   end
          | _ => Raise (TypeError "cannot convert the series to <class 'float'>")
          end
  end.

(** ** [_fetch_noaa_csv] and [fetch_noaa_table] *)

(** [_fetch_noaa_csv("mean", lat, lon)].  [urlopen] is [None] when
    [urllib.request] could not be imported; otherwise it gives the decoded
    text served for the point, or [None] when the request raises.  Every
    exception is caught, so the function never raises. *)
Definition fetch_noaa_csv (urlopen : option (Q -> Q -> option string)) (lat lon : Q) : option DF :=
  match urlopen with
  | None => None
  | Some get =>
      match get lat lon with
      | None => None
      | Some txt => parse_noaa_text txt
      end
  end.

(** What [pfdf_atlas14.download] followed by [read_text] gives: the text of
    the downloaded file, a [requests.RequestException], or any other
    exception. *)
Inductive download : Type :=
| Downloaded (txt : string)
| RequestFailed
| OtherFailure (e : exn).

(** [fetch_noaa_table(lat, lon)]; [pfdf] is [None] when the [pfdf] package
    could not be imported. *)
Definition fetch_noaa_table (pfdf : option (Q -> Q -> download))
    (urlopen : option (Q -> Q -> option string)) (lat lon : Q) : result (option DF) :=
  match pfdf with
  | Some dl =>
      match dl lat lon with
      | RequestFailed => Ok None
      | OtherFailure e => Raise e
      | Downloaded txt =>
          match parse_noaa_text txt with
          | Some df => if df_empty df then Ok (fetch_noaa_csv urlopen lat lon) else Ok (Some df)
          | None => Ok (fetch_noaa_csv urlopen lat lon)
          end
      end
  | None => Ok (fetch_noaa_csv urlopen lat lon)
  end.

(** [fetch_noaa_depth] as the program calls it, on the table that
    [fetch_noaa_table] gives (an exception of the download propagates). *)
Definition noaa_depth (pfdf : option (Q -> Q -> download))
    (urlopen : option (Q -> Q -> option string)) (lat lon duration_hr ari : Q) : result (option Q) :=
  t <- fetch_noaa_table pfdf urlopen lat lon ;;
  fetch_noaa_depth (fun _ _ => t) lat lon duration_hr ari.

(** A float as [argparse]'s [type=float] gives it: finite, NaN, or an
    infinity ([--return-period nan] or [inf] is accepted). *)
Inductive pyfloat : Type :=
| Fin (q : Q)
| NaN
| Inf (negative : bool).

(** [int(round(x))]. *)
Definition py_round_int (x : pyfloat) : result Z :=
  match x with
  | Fin q => Ok (round_half_even q)
  | NaN => Raise (ValueError "cannot convert float NaN to integer")
  | Inf _ => Raise (OverflowError "cannot convert float infinity to integer")
  end.

(** [fetch_noaa_depth] on any float ARI: [int(round(ari))] is computed once
    a non-empty table is there.  (NaN or an infinite [duration_hr] makes
    every entry of [diffs] NaN or [inf], and row 0 is chosen without a
    raise; only a finite one is modelled.) *)
Definition fetch_noaa_depth_float (fetch_table : Q -> Q -> option DF)
    (lat lon duration_hr : Q) (ari : pyfloat) : result (option Q) :=
  let try_minutes := duration_hr * 60 in
  match fetch_table lat lon with
  | None => Ok None
  | Some df =>
      if df_empty df then Ok None
      else
        k <- py_round_int ari ;;
        let ari_key := string_of_Z k in
        if negb (existsb (String.eqb ari_key) (columns df)) then Ok None
        else
          let row_i := nearest_row_index df try_minutes in
          let row := nth row_i (data df) [] in
          match positions ari_key (columns df) with
          | [j] => match nth j row None with
                   | Some v => Ok (Some v)
                   | None => Ok None
                   end
          | _ => Raise (TypeError "cannot convert the series to <class 'float'>")
          end
  end.


(** The example of the DDF text. *)
Definition nl : string := String (ascii_of_nat 10) EmptyString.

Definition ddf_example : string :=
  "Point precipitation frequency estimates (inches)" ++ nl ++
  "by duration for ARI (years): 2 5 10 25" ++ nl ++
  "Latitude: 40.44" ++ nl ++
  "6-hr: 1.2 1.8 2.3 3.0" ++ nl.

End Noaa.

Module Cli.
Import Storm Noaa.
Open Scope string_scope.

(** ** The parsed options

    [argparse.Namespace] as [parse_args] gives it.  A float option is a
    rational (a finite float is one); an option without a default is an
    [option].  [--export-type] and [--distribution] take a value among their
    [choices]; the first is an enumeration here, the second stays a string
    (its choices are the keys of [BETA_PRESETS]). *)
Inductive export := Intensity | Volume | Cumulative.

Record namespace : Type := {
  location : option string;
  duration : Q;
  return_period : Q;
  depth : option Q;
  time_step : Q;
  distribution : string;
  peak : option Q;
  custom_curve : option string;
  use_noaa : bool;
  out_csv : option string;
  out_dat : option string;
  out_hyetograph : option string;
  out_cumulative : option string;
  pptx : string;
  start_datetime : option string;
  gauge_name : string;
  export_type : export;
  save_preset_arg : option string;
  load_preset_arg : option string;
  verbose : bool;
  quiet : bool
}.

(** [args.depth = depth]. *)
Definition set_depth (a : namespace) (d : option Q) : namespace :=
  {| location := location a; duration := duration a; return_period := return_period a;
     depth := d; time_step := time_step a; distribution := distribution a;
     peak := peak a; custom_curve := custom_curve a; use_noaa := use_noaa a;
     out_csv := out_csv a; out_dat := out_dat a; out_hyetograph := out_hyetograph a;
     out_cumulative := out_cumulative a; pptx := pptx a; start_datetime := start_datetime a;
     gauge_name := gauge_name a; export_type := export_type a;
     save_preset_arg := save_preset_arg a; load_preset_arg := load_preset_arg a;
     verbose := verbose a; quiet := quiet a |}.

(** A string option in a Python condition: [None] and [""] are false. *)
Definition truthy (o : option string) : option string :=
  match o with
  | Some s => if String.eqb s "" then None else Some s
  | None => None
  end.

(** ** Presets *)

(** [Config], the dataclass a preset holds. *)
Record config : Type := {
  cfg_location : option string;
  cfg_duration : Q;
  cfg_return_period : Q;
  cfg_depth : option Q;
  cfg_time_step : Q;
  cfg_distribution : string;
  cfg_peak : option Q;
  cfg_custom_curve : option string;
  cfg_start_datetime : option string;
  cfg_gauge_name : string;
  cfg_export_type : export
}.

(** The [Config] that [save_preset] writes (as JSON; [json.loads] gives the
    same values back, so a preset file is read here as its [Config]). *)
Definition save_preset (a : namespace) : config :=
  {| cfg_location := location a; cfg_duration := duration a;
     cfg_return_period := return_period a; cfg_depth := depth a;
     cfg_time_step := time_step a; cfg_distribution := distribution a;
     cfg_peak := peak a; cfg_custom_curve := custom_curve a;
     cfg_start_datetime := start_datetime a; cfg_gauge_name := gauge_name a;
     cfg_export_type := export_type a |}.

(** [load_preset]: each key of the preset is set on the namespace when the
    attribute there is [None].  The attributes that [parse_args] always sets
    (a required option or one with a default) are never [None], so only the
    five optional ones can be filled. *)
Definition fill {A} (cur v : option A) : option A :=
  match cur with None => v | Some x => Some x end.

Definition load_preset (data : config) (a : namespace) : namespace :=
  {| location := fill (location a) (cfg_location data);
     duration := duration a; return_period := return_period a;
     depth := fill (depth a) (cfg_depth data);
     time_step := time_step a; distribution := distribution a;
     peak := fill (peak a) (cfg_peak data);
     custom_curve := fill (custom_curve a) (cfg_custom_curve data);
     use_noaa := use_noaa a;
     out_csv := out_csv a; out_dat := out_dat a; out_hyetograph := out_hyetograph a;
     out_cumulative := out_cumulative a; pptx := pptx a;
     start_datetime := fill (start_datetime a) (cfg_start_datetime data);
     gauge_name := gauge_name a; export_type := export_type a;
     save_preset_arg := save_preset_arg a; load_preset_arg := load_preset_arg a;
     verbose := verbose a; quiet := quiet a |}.

(** ** [write_pcswmm_dat]

    A datetime is a number of minutes since 1970-01-01 00:00 (a real; the
    rounding of [timedelta] to microseconds is not modelled).  A DAT line
    holds the gauge, the date fields of its time stamp and the value
    ([{val:.7G}]); a line is kept here as the gauge, the time stamp and the
    value, before their rendering.  A time stamp past the year 9999, for
    which Python's [datetime] raises [OverflowError], is not modelled. *)
Definition epoch_2003 : R := 17356320.

Inductive column := TimeMinCol | IntensityCol | VolumeCol | CumulativeCol.

Definition df_column (df : frame) (c : column) : list R :=
  match c with
  | TimeMinCol => time_min df
  | IntensityCol => intensity_in_hr df
  | VolumeCol => volume_in df
  | CumulativeCol => cumulative_in df
  end.

Definition dat_row : Type := string * R * R.

Definition write_pcswmm_dat (df : frame) (timestep_min : R) (gauge : string)
    (column : column) (start : option R) : list dat_row :=
  let t0 := match start with Some s => s | None => epoch_2003 end in
  let vals := df_column df column in
  map (fun '(i, v) => (gauge, (t0 + INR i * timestep_min)%R, v))
      (combine (seq 1 (length vals)) vals).

(** ** [main] *)

(** [col_map]. *)
Definition col_map (e : export) : column :=
  match e with Intensity => IntensityCol | Volume => VolumeCol | Cumulative => CumulativeCol end.

(** [s.split(",")]. *)
Fixpoint split_comma_go (s cur : list ascii) : list (list ascii) :=
  match s with
  | [] => [rev cur]
  | c :: r => if chr_eqb c ","%char then rev cur :: split_comma_go r [] else split_comma_go r (c :: cur)
  end.
Definition split_comma (s : string) : list string :=
  map string_of_list_ascii (split_comma_go (lit s) []).

(** The files and plots a run produces, in order. *)
Inductive effect : Type :=
| WriteCsv (path : string) (df : frame)
| WriteDat (path : string) (rows : list dat_row)
| PlotHyetograph (path : string) (df : frame)
| PlotCumulative (path : string) (df : frame)
| AddToPptx (pptx_path image_path : string)
| SavePreset (path : string) (cfg : config).

(** How a run ends: an exit code, an exception of the embedded code, or the
    [RuntimeError] of a plot without matplotlib. *)
Inductive outcome : Type :=
| Exit (code : Z)
| Raised (e : exn)
| RuntimeError (msg : string).

Section Main.

(** The environment: the downloaders of [fetch_noaa_table], the files read
    by [_user_pdf], Python's [float] on a string ([None] when it raises),
    [datetime.fromisoformat], and whether matplotlib could be imported.
    Logging is left out. *)
Variable pfdf : option (Q -> Q -> download).
Variable urlopen : option (Q -> Q -> option string).
Variable fs : filesystem.
Variable py_float : string -> option Q.
Variable fromisoformat : string -> result R.
Variable plt_available : bool.

(** [lat, lon = map(float, args.location.split(","))]; any exception gives
    [None]. *)
Definition location_pair (loc : string) : option (Q * Q) :=
  match split_comma loc with
  | [x; y] =>
      match py_float x, py_float y with
      | Some lat, Some lon => Some (lat, lon)
      | _, _ => None
      end
  | _ => None
  end.

Definition noaa_wanted (a : namespace) : bool :=
  use_noaa a && match truthy (location a) with Some _ => true | None => false end.

(** The NOAA block of [main]: [Ok None] is [return 1], [Ok (Some a')] goes
    on with the namespace [a']. *)
Definition resolve_noaa (a : namespace) : result (option namespace) :=
  if noaa_wanted a then
    match location_pair (match location a with Some l => l | None => "" end) with
    | None => Ok None
    | Some (lat, lon) =>
        d <- noaa_depth pfdf urlopen lat lon (duration a) (return_period a) ;;
        match d, depth a with
        | None, None => Ok None
        | Some v, _ => Ok (Some (set_depth a (Some v)))
        | None, Some _ => Ok (Some a)
        end
    end
  else Ok (Some a).

(** [plot_hyetograph] or [plot_cumulative] followed by the PPTX slide; the
    flag is [false] when the plot raises. *)
Definition plot_step (a : namespace) (out : option string) (mk : string -> effect)
    : list effect * bool :=
  match truthy out with
  | None => ([], true)
  | Some p =>
      if plt_available then
        (mk p :: (if String.eqb (pptx a) "" then [] else [AddToPptx (pptx a) p]), true)
      else ([], false)
  end.

(** The writes of [main] after the storm is built, in order.  The writes
    are taken to succeed: an [OSError] of a file, a [ValueError] of
    [with_suffix] or [savefig] on a bad file name, and the [OverflowError]
    of a DAT time stamp past the year 9999 are not modelled. *)
Definition outputs (a : namespace) (df : frame) (start_dt : option R) : list effect * outcome :=
  let _ := col_map (export_type a) in
  let csv := match truthy (out_csv a) with Some p => [WriteCsv p df] | None => [] end in
  let dat := match truthy (out_dat a) with
             | Some p => [WriteDat p (write_pcswmm_dat df (Q2R (time_step a)) (gauge_name a)
                                        IntensityCol start_dt)]
             | None => [] end in
  let pre := (csv ++ dat)%list in
  match plot_step a (out_hyetograph a) (fun p => PlotHyetograph p df) with
  | (eh, false) => ((pre ++ eh)%list, RuntimeError "matplotlib not available")
  | (eh, true) =>
      match plot_step a (out_cumulative a) (fun p => PlotCumulative p df) with
      | (ec, false) => ((pre ++ eh ++ ec)%list, RuntimeError "matplotlib not available")
      | (ec, true) =>
          let sp := match truthy (save_preset_arg a) with
                    | Some p => [SavePreset p (save_preset a)]
                    | None => [] end in
          ((pre ++ eh ++ ec ++ sp)%list, Exit 0)
      end
  end.

Definition main (a : namespace) : list effect * outcome :=
  match resolve_noaa a with
  | Raise e => ([], Raised e)
  | Ok None => ([], Exit 1)
  | Ok (Some a1) =>
      match depth a1 with
      | None => ([], Exit 1)
      | Some d =>
          let custom_path := truthy (custom_curve a1) in
          match (match truthy (start_datetime a1) with
                 | Some s => t <- fromisoformat s ;; Ok (Some t)
                 | None => Ok None
                 end) with
          | Raise e => ([], Raised e)
          | Ok start_dt =>
              match build_storm fs (Q2R d) (Q2R (duration a1)) (Q2R (time_step a1))
                      (distribution a1) None custom_path start_dt with
              | Raise e => ([], Raised e)
              | Ok df => outputs a1 df start_dt
              end
          end
      end
  end.

End Main.

(** The namespace with the options [main] does not read for the run
    itself: [--load-preset], [-v], [-q], [--peak] and [--export-type]. *)
Definition with_unused (a : namespace) (lp : option string) (v q : bool)
    (pk : option Q) (et : export) : namespace :=
  {| location := location a; duration := duration a; return_period := return_period a;
     depth := depth a; time_step := time_step a; distribution := distribution a;
     peak := pk; custom_curve := custom_curve a; use_noaa := use_noaa a;
     out_csv := out_csv a; out_dat := out_dat a; out_hyetograph := out_hyetograph a;
     out_cumulative := out_cumulative a; pptx := pptx a; start_datetime := start_datetime a;
     gauge_name := gauge_name a; export_type := et;
     save_preset_arg := save_preset_arg a; load_preset_arg := lp;
     verbose := v; quiet := q |}.

(** What an effect of a run holds when it comes from the storm [df] built
    at depth [d] with the start [st]. *)
Definition effect_from (a : namespace) (d : Q) (df : frame) (st : option R) (eff : effect) : Prop :=
  match eff with
  | WriteCsv _ f | PlotHyetograph _ f | PlotCumulative _ f => f = df
  | WriteDat _ rows => rows = write_pcswmm_dat df (Q2R (time_step a)) (gauge_name a) IntensityCol st
  | SavePreset _ cfg => cfg = save_preset (set_depth a (Some d))
  | AddToPptx p _ => p = pptx a
  end.

(** A piece of [split_comma] holds no comma. *)
Definition no_comma (p : list ascii) : Prop := ~ In ","%char p.

(** [",".join] on character lists, the inverse of [split_comma_go]. *)
Fixpoint join_comma (ps : list (list ascii)) : list ascii :=
  match ps with
  | [] => []
  | [p] => p
  | p :: r => (p ++ ","%char :: join_comma r)%list
  end.

(** The options of [design_storm.py --duration 1 --time-step 15
    --depth 2 --distribution huff_q2 --out-csv storm --out-dat storm]. *)
Definition example_args : namespace :=
  {| location := None; duration := 1; return_period := 10; depth := Some 2%Q;
     time_step := 15; distribution := "huff_q2"; peak := None; custom_curve := None;
     use_noaa := false; out_csv := Some "storm"; out_dat := Some "storm";
     out_hyetograph := None; out_cumulative := None; pptx := "";
     start_datetime := None; gauge_name := "System"; export_type := Intensity;
     save_preset_arg := None; load_preset_arg := None; verbose := false; quiet := false |}.

End Cli.

Module StormFacts.
Import Storm.
Open Scope R_scope.

(** ** Lengths *)

Lemma linspace_length a b k : length (linspace a b k) = k.
Proof.
  destruct k as [|[|k]]; simpl; auto.
  now rewrite length_map, length_seq.
Qed.

Lemma linspace_open_length a b k : length (linspace_open a b k) = k.
Proof. unfold linspace_open. now rewrite length_map, length_seq. Qed.

Lemma np_diff_length l : length (np_diff l) = (length l - 1)%nat.
Proof.
  induction l as [|x [|y r] IH]; simpl; auto.
  simpl in IH. rewrite IH. lia.
Qed.

Lemma cumsum_from_length acc l : length (cumsum_from acc l) = length l.
Proof. revert acc; induction l; simpl; auto. Qed.

(** ** Sums *)

Lemma np_sum_cons x l : np_sum (x :: l) = x + np_sum l.
Proof. reflexivity. Qed.

Lemma np_sum_scale_r (c : R) l : np_sum (map (fun v => v * c) l) = np_sum l * c.
Proof. induction l; simpl; [ring|]. unfold np_sum in *; simpl in *. rewrite IHl; ring. Qed.

Lemma np_sum_scale_l (c : R) l : np_sum (map (fun v => c * v) l) = c * np_sum l.
Proof. induction l; simpl; [ring|]. unfold np_sum in *; simpl in *. rewrite IHl; ring. Qed.

Lemma np_sum_div (s : R) l : np_sum (map (fun v => v / s) l) = np_sum l / s.
Proof. induction l; simpl; [unfold Rdiv; ring|]. unfold np_sum in *; simpl in *. rewrite IHl; unfold Rdiv; ring. Qed.

Lemma np_sum_div_mul (s d : R) l :
  np_sum (map (fun v => v / s * d) l) = np_sum l / s * d.
Proof. induction l; simpl; [unfold Rdiv; ring|]. unfold np_sum in *; simpl in *. rewrite IHl; unfold Rdiv; ring. Qed.

Lemma np_sum_full n v : np_sum (np_full n v) = INR n * v.
Proof.
  induction n; unfold np_full in *; simpl repeat; [simpl; ring|].
  rewrite np_sum_cons, IHn, S_INR. ring.
Qed.

Lemma cumsum_from_last acc l :
  l <> [] -> last (cumsum_from acc l) 0 = acc + np_sum l.
Proof.
  revert acc; induction l as [|x r IH]; intros acc H; [congruence|].
  destruct r as [|y r'].
  - simpl. unfold np_sum; simpl. ring.
  - change (last (cumsum_from (acc + x) (y :: r')) 0
            = acc + np_sum (x :: y :: r')).
    rewrite IH by discriminate. rewrite (np_sum_cons x). ring.
Qed.

(** The normalisation branches: the uniform fallback and the rescaling both
    give a total of [depth] (resp. [1]). *)
Lemma full_sum_depth n depth :
  (1 <= n)%nat -> np_sum (np_full n (depth / INR (Nat.max n 1))) = depth.
Proof.
  intros Hn. rewrite np_sum_full.
  replace (Nat.max n 1) with n by lia.
  assert (0 < INR n) by (apply lt_0_INR; lia). field. lra.
Qed.

Lemma full_sum_one n : (1 <= n)%nat -> np_sum (np_full n (1 / INR n)) = 1.
Proof.
  intros Hn. rewrite np_sum_full.
  assert (0 < INR n) by (apply lt_0_INR; lia). field. lra.
Qed.

Lemma rescale_depth_ok n depth l :
  (1 <= n)%nat -> length l = n ->
  let r := if Rle_dec (np_sum l) 0 then np_full n (depth / INR (Nat.max n 1))
           else map (fun v => v / np_sum l * depth) l in
  length r = n /\ np_sum r = depth.
Proof.
  intros Hn Hl r. unfold r.
  destruct (Rle_dec (np_sum l) 0) as [Hs|Hs].
  - split; [unfold np_full; now rewrite repeat_length | now apply full_sum_depth].
  - split; [now rewrite length_map|].
    rewrite np_sum_div_mul. field. lra.
Qed.

Lemma rescale_one_ok n l :
  (1 <= n)%nat -> length l = n ->
  let r := if Rle_dec (np_sum l) 0 then np_full n (1 / INR n)
           else map (fun v => v / np_sum l) l in
  length r = n /\ np_sum r = 1.
Proof.
  intros Hn Hl r. unfold r.
  destruct (Rle_dec (np_sum l) 0) as [Hs|Hs].
  - split; [unfold np_full; now rewrite repeat_length | now apply full_sum_one].
  - split; [now rewrite length_map|].
    rewrite np_sum_div. field. lra.
Qed.

Lemma grid_diff_length n (f : R -> R) :
  length (np_diff (map f (linspace 0 1 (n + 1)))) = n.
Proof. rewrite np_diff_length, length_map, linspace_length. lia. Qed.

Lemma storm_from_table_ok depth n table inc :
  (1 <= n)%nat -> storm_from_table depth n table = Ok inc ->
  length inc = n /\ np_sum inc = depth.
Proof.
  intros Hn H. unfold storm_from_table in H.
  destruct (length table <? 2)%nat; [discriminate|].
  destruct (negb _); [discriminate|].
  cbv zeta in H.
  match type of H with
  | (if Rle_dec (np_sum ?l) 0 then _ else _) = _ =>
      pose proof (rescale_depth_ok n depth l Hn) as Hr
  end.
  cbv zeta in Hr. rewrite grid_diff_length in Hr. specialize (Hr eq_refl).
  destruct (Rle_dec _ _); injection H as <-; exact Hr.
Qed.

Lemma user_pdf_ok fs n p pdf :
  (1 <= n)%nat -> user_pdf fs n p = Ok pdf -> length pdf = n /\ np_sum pdf = 1.
Proof.
  intros Hn H. unfold user_pdf in H.
  destruct (fs p) as [[|row rows]|]; try discriminate.
  cbv zeta in H.
  match type of H with
  | (if Rle_dec (np_sum ?l) 0 then _ else _) = _ =>
      pose proof (rescale_one_ok n l Hn) as Hr
  end.
  cbv zeta in Hr. rewrite grid_diff_length in Hr. specialize (Hr eq_refl).
  destruct (Rle_dec _ _); injection H as <-; exact Hr.
Qed.

Lemma beta_pdf_ok n a b :
  (1 <= n)%nat -> length (beta_pdf n a b) = n /\ np_sum (beta_pdf n a b) = 1.
Proof.
  intros Hn. unfold beta_pdf.
  match goal with
  | |- context [if Rle_dec (np_sum ?l) 0 then _ else _] =>
      pose proof (rescale_one_ok n l Hn) as Hr
  end.
  cbv zeta in Hr. rewrite !length_map, linspace_open_length in Hr.
  exact (Hr eq_refl).
Qed.

Lemma bind_ok {A B} (m : result A) (f : A -> result B) b :
  bind m f = Ok b -> exists a, m = Ok a /\ f a = Ok b.
Proof. destruct m; simpl; [eauto | discriminate]. Qed.

Lemma bin_count_pos d ts : (1 <= bin_count d ts)%nat.
Proof. unfold bin_count. lia. Qed.

Lemma map_scale_ok depth l :
  np_sum l = 1 -> np_sum (map (fun v => depth * v) l) = depth.
Proof. intros H. rewrite np_sum_scale_l, H. ring. Qed.

(** Everything [build_storm] returns, apart from the values of the pattern. *)
Lemma build_storm_ok fs depth d ts dist peak path start df :
  build_storm fs depth d ts dist peak path start = Ok df ->
  let n := bin_count d ts in
  0 < d /\ 0 < ts /\
  length (volume_in df) = n /\ np_sum (volume_in df) = depth /\
  intensity_in_hr df =
    (if (n =? 1)%nat then [depth / Rmax d 1e-12]
     else map (fun v => v / (ts / 60)) (volume_in df)) /\
  cumulative_in df = np_cumsum (volume_in df) /\
  time_min df = map (fun i => INR i * ts) (seq 0 n) /\
  timestamp df = option_map (fun s => map (fun m => s + m) (time_min df)) start.
Proof.
  intros H n. unfold build_storm in H.
  destruct (Rle_dec d 0) as [|Hd]; [discriminate|].
  destruct (Rle_dec ts 0) as [|Hts]; [discriminate|].
  fold n in H.
  apply bind_ok in H as [inc [Hinc Hdf]].
  injection Hdf as <-. simpl.
  assert (Hn : (1 <= n)%nat) by apply bin_count_pos.
  assert (length inc = n /\ np_sum inc = depth) as [Hl Hs].
  { destruct (assoc dist PROPORTION_TABLES) as [table|].
    - eapply storm_from_table_ok; eauto.
    - destruct (String.eqb dist "user").
      + destruct path as [p|]; [|discriminate].
        apply bind_ok in Hinc as [pdf [Hpdf Hinc]]. injection Hinc as <-.
        destruct (user_pdf_ok _ _ _ _ Hn Hpdf) as [Hl Hs].
        split; [now rewrite length_map | now apply map_scale_ok].
      + destruct (assoc dist BETA_PRESETS) as [[a b]|]; [|discriminate].
        injection Hinc as <-.
        destruct (beta_pdf_ok n a b Hn) as [Hl Hs].
        split; [now rewrite length_map | now apply map_scale_ok]. }
  repeat split; try lra; auto.
Qed.

(** ** Monotonicity of the resampled curve *)

Lemma seg_slope_nonneg x0 x1 f0 f1 :
  x0 < x1 -> f0 <= f1 -> 0 <= (f1 - f0) / (x1 - x0).
Proof.
  intros. unfold Rdiv. apply Rmult_le_pos; [lra|].
  left. apply Rinv_0_lt_compat. lra.
Qed.

Lemma interp_seg_ge pts : forall x0 f0 x,
  chain x0 f0 pts -> x0 <= x -> f0 <= interp_seg x x0 f0 pts.
Proof.
  induction pts as [|[x1 f1] r IH]; intros x0 f0 x Hc Hx; simpl; [lra|].
  destruct Hc as (Hx01 & Hf01 & Hc).
  destruct (Rlt_dec x x1) as [Hlt|Hge].
  - pose proof (seg_slope_nonneg x0 x1 f0 f1 Hx01 Hf01).
    assert (0 <= (x - x0) * ((f1 - f0) / (x1 - x0))) by (apply Rmult_le_pos; lra).
    lra.
  - specialize (IH x1 f1 x Hc ltac:(lra)). lra.
Qed.

Lemma interp_seg_mono pts : forall x0 f0 x y,
  chain x0 f0 pts -> x0 <= x -> x <= y ->
  interp_seg x x0 f0 pts <= interp_seg y x0 f0 pts.
Proof.
  induction pts as [|[x1 f1] r IH]; intros x0 f0 x y Hc Hx Hxy; simpl; [lra|].
  pose proof Hc as (Hx01 & Hf01 & Hc').
  pose proof (seg_slope_nonneg x0 x1 f0 f1 Hx01 Hf01) as Hk.
  set (k := (f1 - f0) / (x1 - x0)) in *.
  assert (Hk1 : (x1 - x0) * k = f1 - f0) by (unfold k; field; lra).
  destruct (Rlt_dec x x1) as [Hlt|Hge]; destruct (Rlt_dec y x1) as [Hlt'|Hge'].
  - apply Rplus_le_compat_l. apply Rmult_le_compat_r; lra.
  - pose proof (interp_seg_ge r x1 f1 y Hc' ltac:(lra)).
    assert ((x - x0) * k <= (x1 - x0) * k) by (apply Rmult_le_compat_r; lra).
    lra.
  - lra.
  - apply IH; auto; lra.
Qed.

Lemma chain_combine xs : forall x0 f0 fs,
  incr (x0 :: xs) -> nondecr (f0 :: fs) -> chain x0 f0 (combine xs fs).
Proof.
  induction xs as [|x1 xs IH]; intros x0 f0 fs Hx Hf; simpl; auto.
  destruct fs as [|f1 fs]; simpl; auto.
  destruct Hx as [Hx Hx']. destruct Hf as [Hf Hf'].
  repeat split; auto.
Qed.

Lemma np_interp_mono xp fp x y :
  incr xp -> nondecr fp -> x <= y -> np_interp x xp fp <= np_interp y xp fp.
Proof.
  intros Hx Hf Hxy. unfold np_interp.
  destruct xp as [|x0 xs]; [simpl; lra|]. destruct fp as [|f0 fs]; [simpl; lra|].
  simpl. pose proof (chain_combine xs x0 f0 fs Hx Hf) as Hc.
  destruct (Rlt_dec x x0); destruct (Rlt_dec y x0).
  - lra.
  - apply interp_seg_ge; auto; lra.
  - lra.
  - apply interp_seg_mono; auto; lra.
Qed.

Lemma nondecr_map (f : R -> R) l :
  (forall x y, x <= y -> f x <= f y) -> nondecr l -> nondecr (map f l).
Proof.
  intros Hf. induction l as [|x [|y r] IH]; simpl; auto.
  intros [Hxy Hr]. split; [now apply Hf | exact (IH Hr)].
Qed.

Lemma incr_map_seq (g : nat -> R) k : forall s,
  (forall i, g i < g (S i)) -> incr (map g (seq s k)).
Proof.
  induction k as [|k IH]; intros s Hg; simpl; auto.
  destruct k; simpl; auto. split; [apply Hg|].
  exact (IH (S s) Hg).
Qed.

Lemma incr_nondecr l : incr l -> nondecr l.
Proof.
  induction l as [|x [|y r] IH]; simpl; auto.
  intros [H1 H2]. split; [lra | exact (IH H2)].
Qed.

Lemma linspace_incr k : incr (linspace 0 1 k).
Proof.
  destruct k as [|[|k]]; [exact I | exact I|].
  unfold linspace. apply incr_map_seq. intros i. rewrite S_INR.
  assert (0 < (1 - 0) / INR (S (S k) - 1)).
  { unfold Rdiv. apply Rmult_lt_0_compat; [lra|]. apply Rinv_0_lt_compat, lt_0_INR. lia. }
  nra.
Qed.

Lemma diff_nonneg l : nondecr l -> Forall (fun d => 0 <= d) (np_diff l).
Proof.
  induction l as [|x [|y r] IH]; simpl; auto.
  intros [Hxy Hr]. constructor; [lra | exact (IH Hr)].
Qed.

Lemma validation_nondecr arr :
  forallb (fun d => Rleb 0 d) (np_diff arr) = true -> nondecr arr.
Proof.
  induction arr as [|x [|y r] IH]; simpl; auto.
  intros H. apply andb_prop in H as [H1 H2].
  unfold Rleb in H1. destruct (Rle_dec 0 (y - x)); [|discriminate].
  split; [lra | exact (IH H2)].
Qed.

Lemma cumsum_nondecr l : forall acc,
  Forall (fun d => 0 <= d) l -> nondecr (cumsum_from acc l).
Proof.
  induction l as [|x r IH]; intros acc H; simpl; auto.
  inversion H as [|? ? Hx Hr]; subst.
  destruct r as [|y r']; simpl; auto.
  inversion Hr; subst. split; [lra|].
  exact (IH (acc + x) Hr).
Qed.

(** A table that passes the checks and ends above zero is resampled into
    non-negative increments. *)
Lemma storm_from_table_nonneg depth n table inc :
  0 <= depth -> 0 < last table 0 ->
  storm_from_table depth n table = Ok inc -> Forall (fun d => 0 <= d) inc.
Proof.
  intros Hd HL H. unfold storm_from_table in H.
  destruct (length table <? 2)%nat; [discriminate|].
  destruct (forallb _ (np_diff table)) eqn:Hv; simpl in H; [|discriminate].
  apply validation_nondecr in Hv.
  destruct (Req_dec_T (last table 0) 0) as [|_]; [lra|].
  set (L := last table 0) in *.
  set (norm := map (fun v => v / L) table) in *.
  set (cum := map (fun g => np_interp g (linspace 0 1 (length norm)) norm)
                  (linspace 0 1 (n + 1))) in *.
  assert (Hnorm : nondecr norm).
  { apply nondecr_map; auto. intros x y Hxy. unfold Rdiv.
    apply Rmult_le_compat_r; [left; now apply Rinv_0_lt_compat | exact Hxy]. }
  assert (Hcum : nondecr cum).
  { apply nondecr_map; [|apply incr_nondecr, linspace_incr].
    intros x y Hxy. apply np_interp_mono; auto. apply linspace_incr. }
  apply diff_nonneg in Hcum.
  destruct (Rle_dec (np_sum (np_diff cum)) 0) as [Hs|Hs]; injection H as <-.
  - apply Forall_forall. intros v Hin. unfold np_full in Hin.
    apply repeat_spec in Hin as ->. apply Rmult_le_pos; [exact Hd|].
    left. apply Rinv_0_lt_compat, lt_0_INR. lia.
  - apply Forall_map. eapply Forall_impl; [|exact Hcum].
    intros v Hv0. simpl. unfold Rdiv.
    apply Rmult_le_pos; [apply Rmult_le_pos|]; auto.
    left. apply Rinv_0_lt_compat. lra.
Qed.

(** ** The official tables pass the checks of [_storm_from_table] *)

Lemma np_diff_of_e4 zs : np_diff (of_e4 zs) = of_e4 (z_diff zs).
Proof.
  induction zs as [|x [|y r] IH]; simpl; auto.
  simpl in IH. rewrite IH. f_equal. rewrite minus_IZR. field.
Qed.

Lemma forallb_of_e4 ds :
  forallb (Z.leb 0) ds = true -> forallb (fun d => Rleb 0 d) (of_e4 ds) = true.
Proof.
  induction ds as [|d r IH]; simpl; auto.
  intros H. apply andb_prop in H as [H1 H2]. rewrite (IH H2), andb_true_r.
  unfold Rleb. destruct (Rle_dec 0 (IZR d / 10000)) as [|Hn]; auto.
  exfalso. apply Hn. apply Z.leb_le, IZR_le in H1.
  unfold Rdiv. apply Rmult_le_pos; lra.
Qed.

Lemma last_map_nonempty (f : R -> R) (l : list R) d d' :
  l <> [] -> last (map f l) d' = f (last l d).
Proof.
  induction l as [|x [|y r] IH]; intros H; [congruence | reflexivity|].
  change (last (map f (y :: r)) d' = f (last (y :: r) d)).
  apply IH. discriminate.
Qed.

Lemma last_of_e4 zs : zs <> [] -> last (of_e4 zs) 0 = IZR (last zs 0%Z) / 10000.
Proof.
  induction zs as [|x [|y r] IH]; intros H; [congruence | reflexivity |].
  change (last (of_e4 (y :: r)) 0 = IZR (last (y :: r) 0%Z) / 10000).
  apply IH. discriminate.
Qed.

Lemma of_e4_table_ok zs :
  (2 <= length zs)%nat -> forallb (Z.leb 0) (z_diff zs) = true ->
  last zs 0%Z = 10000%Z ->
  (2 <= length (of_e4 zs))%nat /\
  forallb (fun d => Rleb 0 d) (np_diff (of_e4 zs)) = true /\
  last (of_e4 zs) 0 = 1.
Proof.
  intros Hl Hd Hlast. unfold of_e4 at 1. rewrite length_map.
  split; [exact Hl|]. split.
  - rewrite np_diff_of_e4. now apply forallb_of_e4.
  - rewrite last_of_e4 by (intros ->; simpl in Hl; lia).
    rewrite Hlast. field.
Qed.

Lemma assoc_in {V} k (l : list (string * V)) v :
  assoc k l = Some v -> In (k, v) l.
Proof.
  induction l as [|[k' v'] r IH]; simpl; [discriminate|].
  destruct (String.eqb k k') eqn:E.
  - intros H. injection H as <-. apply String.eqb_eq in E as ->. now left.
  - intros H. right. now apply IH.
Qed.

Lemma official_table_ok name table :
  assoc name PROPORTION_TABLES = Some table ->
  (2 <= length table)%nat /\
  forallb (fun d => Rleb 0 d) (np_diff table) = true /\
  last table 0 = 1.
Proof.
  intros H. apply assoc_in in H.
  unfold PROPORTION_TABLES, In in H.
  destruct H as [H|[H|[H|[H|[]]]]]; apply pair_equal_spec in H as [_ <-];
    (apply of_e4_table_ok; [apply Nat.leb_le | |]; vm_compute; reflexivity).
Qed.

(** So an official table never raises, for any bin count. *)
Lemma official_table_no_raise name table depth n :
  assoc name PROPORTION_TABLES = Some table ->
  exists inc, storm_from_table depth n table = Ok inc.
Proof.
  intros H. destruct (official_table_ok name table H) as (Hl & Hv & _).
  unfold storm_from_table.
  destruct (Nat.ltb_spec (length table) 2); [lia|].
  rewrite Hv. simpl.
  destruct (Rle_dec _ 0); eauto.
Qed.

Lemma beta_presets_some dist :
  assoc dist PROPORTION_TABLES = None -> String.eqb dist "user" = false ->
  assoc dist BETA_PRESETS <> None -> exists a b, assoc dist BETA_PRESETS = Some (a, b).
Proof. intros _ _ H. destruct (assoc dist BETA_PRESETS) as [[a b]|]; [eauto | congruence]. Qed.

(** ** Outcomes of [build_storm], case by case *)


Lemma build_bad_duration fs depth d ts dist peak path start :
  d <= 0 -> exists msg, build_storm fs depth d ts dist peak path start = Raise (ValueError msg).
Proof. intros H. unfold build_storm. destruct (Rle_dec d 0); [eauto | lra]. Qed.

Lemma build_bad_timestep fs depth d ts dist peak path start :
  0 < d -> ts <= 0 ->
  exists msg, build_storm fs depth d ts dist peak path start = Raise (ValueError msg).
Proof.
  intros H1 H2. unfold build_storm.
  destruct (Rle_dec d 0); [lra|]. destruct (Rle_dec ts 0); [eauto | lra].
Qed.

(** With positive duration and timestep, [build_storm] is the dispatch. *)
Lemma build_dispatch fs depth d ts dist peak path start :
  0 < d -> 0 < ts ->
  build_storm fs depth d ts dist peak path start =
  (let n := bin_count d ts in
   incremental <-
     match assoc dist PROPORTION_TABLES with
     | Some table => storm_from_table depth n table
     | None =>
         if String.eqb dist "user" then
           match path with
           | None => Raise (ValueError "Custom curve path required for 'user' distribution")
           | Some p => pdf <- user_pdf fs n p ;; Ok (map (fun v => depth * v) pdf)
           end
         else
           match assoc dist BETA_PRESETS with
           | None => Raise (ValueError ("Unknown distribution: " ++ dist)%string)
           | Some (a, b) => Ok (map (fun v => depth * v) (beta_pdf n a b))
           end
     end ;;
   let intens :=
     if (n =? 1)%nat then [depth / Rmax d 1e-12]
     else map (fun v => v / (ts / 60)) incremental in
   Ok {| time_min := map (fun i => INR i * ts) (seq 0 n);
         intensity_in_hr := intens;
         volume_in := incremental;
         cumulative_in := np_cumsum incremental;
         timestamp := option_map (fun s => map (fun m => s + m)
                                   (map (fun i => INR i * ts) (seq 0 n))) start |}).
Proof.
  intros H1 H2. unfold build_storm.
  destruct (Rle_dec d 0); [lra|]. destruct (Rle_dec ts 0); [lra|]. reflexivity.
Qed.

Lemma build_official fs depth d ts dist peak path start table :
  0 < d -> 0 < ts -> assoc dist PROPORTION_TABLES = Some table ->
  exists df, build_storm fs depth d ts dist peak path start = Ok df.
Proof.
  intros H1 H2 Ht. rewrite build_dispatch by assumption. cbv zeta. rewrite Ht.
  destruct (official_table_no_raise dist table depth (bin_count d ts) Ht) as [inc ->].
  simpl. eauto.
Qed.


Lemma build_beta fs depth d ts dist peak path start a b :
  0 < d -> 0 < ts -> assoc dist PROPORTION_TABLES = None ->
  String.eqb dist "user" = false -> assoc dist BETA_PRESETS = Some (a, b) ->
  exists df, build_storm fs depth d ts dist peak path start = Ok df.
Proof.
  intros H1 H2 Ht Hu Hb. rewrite build_dispatch by assumption. cbv zeta.
  rewrite Ht, Hu, Hb. simpl. eauto.
Qed.

Lemma build_unknown fs depth d ts dist peak path start :
  0 < d -> 0 < ts -> assoc dist PROPORTION_TABLES = None ->
  String.eqb dist "user" = false -> assoc dist BETA_PRESETS = None ->
  exists msg, build_storm fs depth d ts dist peak path start = Raise (ValueError msg).
Proof.
  intros H1 H2 Ht Hu Hb. rewrite build_dispatch by assumption. cbv zeta.
  rewrite Ht, Hu, Hb. simpl. eauto.
Qed.


(** ** The bin count *)

Lemma math_ceil_spec r : IZR (math_ceil r) - 1 < r <= IZR (math_ceil r).
Proof.
  unfold math_ceil, math_floor. destruct (archimed (- r)) as [H1 H2].
  rewrite opp_IZR, minus_IZR. lra.
Qed.

Lemma math_ceil_unique r z : IZR z - 1 < r <= IZR z -> math_ceil r = z.
Proof.
  intros [H1 H2]. unfold math_ceil, math_floor.
  assert (Hu : (1 - z)%Z = up (- r)) by (apply tech_up; rewrite minus_IZR; lra).
  rewrite <- Hu. lia.
Qed.

Lemma bin_count_one d ts : 0 < d * 60 / ts <= 1 -> bin_count d ts = 1%nat.
Proof.
  intros H. unfold bin_count. rewrite (math_ceil_unique _ 1) by lra. reflexivity.
Qed.

Lemma list_one_sum (l : list R) depth :
  length l = 1%nat -> np_sum l = depth -> l = [depth].
Proof.
  destruct l as [|x [|y r]]; simpl; intros Hl Hs; try discriminate.
  unfold np_sum in Hs; simpl in Hs. f_equal. lra.
Qed.

Lemma registered_non_user_ok fs depth d ts dist peak path start :
  0 < d -> 0 < ts -> registered dist -> dist <> "user" ->
  exists df, build_storm fs depth d ts dist peak path start = Ok df.
Proof.
  intros H1 H2 Hr Hu.
  destruct (assoc dist PROPORTION_TABLES) as [table|] eqn:Ht.
  - eapply build_official; eauto.
  - destruct Hr as [Hr|Hr]; [congruence|].
    destruct (assoc dist BETA_PRESETS) as [[a b]|] eqn:Hb; [|congruence].
    eapply build_beta; eauto. now apply String.eqb_neq.
Qed.

(** ** Beta sampling, [np.argmax] and [np.roll] *)

Lemma nth_map_seq (f : nat -> R) k i d :
  (i < k)%nat -> nth i (map f (seq 0 k)) d = f i.
Proof.
  intros Hi. rewrite nth_indep with (d' := f 0%nat) by (rewrite length_map, length_seq; lia).
  rewrite map_nth, seq_nth by lia. reflexivity.
Qed.

Lemma map_seq_const (f : nat -> R) c k : forall s,
  (forall i, f i = c) -> map f (seq s k) = repeat c k.
Proof. induction k as [|k IH]; intros s Hf; simpl; [reflexivity|]. now rewrite Hf, IH. Qed.

Lemma np_sum_pos l : l <> [] -> Forall (fun v => 0 < v) l -> 0 < np_sum l.
Proof.
  induction l as [|x r IH]; intros Hne Hf; [congruence|].
  inversion Hf as [|? ? Hx Hr]; subst. rewrite np_sum_cons.
  destruct r as [|y r']; [unfold np_sum; simpl; lra|].
  assert (0 < np_sum (y :: r')) by (apply IH; [discriminate | exact Hr]). lra.
Qed.

Lemma mid_bin_bounds n i : (i < n)%nat -> 0 < mid_bin n i < 1.
Proof.
  intros Hi. unfold mid_bin.
  assert (Hn : 0 < INR n) by (apply lt_0_INR; lia).
  assert (Hin : INR i + 1 <= INR n) by (rewrite <- S_INR; apply le_INR; lia).
  pose proof (pos_INR i).
  split; [apply Rdiv_lt_0_compat; lra|].
  apply (Rmult_lt_reg_r (INR n)); [lra|]. unfold Rdiv.
  rewrite Rmult_assoc, Rinv_l by lra. lra.
Qed.

(** [_beta_pdf] samples at the bin midpoints and never takes its fallback. *)
Lemma beta_pdf_explicit n a b :
  (1 <= n)%nat ->
  beta_pdf n a b =
  map (fun v => v / np_sum (map (fun i => exp (beta_logpdf a b (mid_bin n i))) (seq 0 n)))
      (map (fun i => exp (beta_logpdf a b (mid_bin n i))) (seq 0 n)).
Proof.
  intros Hn. unfold beta_pdf.
  assert (Hx : map (fun v => v + 0.5 / INR n) (linspace_open 0 1 n) = map (mid_bin n) (seq 0 n)).
  { unfold linspace_open, mid_bin. rewrite map_map. apply map_ext. intros i.
    field. apply not_0_INR. lia. }
  rewrite Hx, map_map.
  match goal with |- (if Rle_dec (np_sum ?l) 0 then _ else _) = _ =>
    assert (Hs : 0 < np_sum l) end.
  { apply np_sum_pos.
    - destruct n as [|n]; [lia|]. simpl. discriminate.
    - apply Forall_forall. intros v Hv. apply in_map_iff in Hv.
      destruct Hv as (i & <- & _). apply exp_pos. }
  destruct (Rle_dec _ 0); [lra | reflexivity].
Qed.

Lemma beta_pdf_uniform n : (1 <= n)%nat -> beta_pdf n 1 1 = repeat (1 / INR n) n.
Proof.
  intros Hn. rewrite beta_pdf_explicit by exact Hn.
  rewrite (map_seq_const _ 1 n 0).
  - rewrite map_repeat. f_equal.
    replace (np_sum (repeat 1 n)) with (INR n * 1) by (symmetry; apply np_sum_full).
    now rewrite Rmult_1_r.
  - intros i. unfold beta_logpdf. replace (1 - 1) with 0 by ring.
    rewrite !Rmult_0_l, Rplus_0_r. apply exp_0.
Qed.

Lemma argmax_go_spec r : forall p bi b,
  p <> [] -> (bi < length p)%nat -> nth bi p 0 = b ->
  (forall j, (j < length p)%nat -> nth j p 0 <= b) ->
  (forall j, (j < bi)%nat -> nth j p 0 < b) ->
  let k := argmax_go r (length p) bi b in
  (k < length (p ++ r))%nat /\
  (forall j, (j < length (p ++ r))%nat -> nth j (p ++ r) 0 <= nth k (p ++ r) 0) /\
  (forall j, (j < k)%nat -> nth j (p ++ r) 0 < nth k (p ++ r) 0).
Proof.
  induction r as [|x r IH]; intros p bi b Hne Hbi Hb Hle Hlt k.
  - subst k. simpl. rewrite app_nil_r, Hb. auto.
  - assert (Hlen : length (p ++ [x]) = S (length p)) by (rewrite length_app; simpl; lia).
    assert (Hne' : (p ++ [x])%list <> []) by (intros E; apply app_eq_nil in E as [_ E]; discriminate).
    assert (Hx : nth (length p) (p ++ [x])%list 0 = x)
      by (rewrite app_nth2, Nat.sub_diag by lia; reflexivity).
    replace (p ++ x :: r)%list with ((p ++ [x]) ++ r)%list by (rewrite <- app_assoc; reflexivity).
    subst k. simpl argmax_go.
    destruct (Rlt_dec b x) as [Hbx|Hbx].
    + specialize (IH (p ++ [x])%list (length p) x). rewrite Hlen in IH.
      apply IH; [exact Hne' | lia | exact Hx | |].
      * intros j Hj. destruct (Nat.lt_ge_cases j (length p)) as [Hj'|Hj'].
        -- rewrite app_nth1 by exact Hj'. specialize (Hle j Hj'). lra.
        -- replace j with (length p) by lia. rewrite Hx. lra.
      * intros j Hj. rewrite app_nth1 by exact Hj. specialize (Hle j Hj). lra.
    + specialize (IH (p ++ [x])%list bi b). rewrite Hlen in IH.
      apply IH; [exact Hne' | lia | rewrite app_nth1 by lia; exact Hb | |].
      * intros j Hj. destruct (Nat.lt_ge_cases j (length p)) as [Hj'|Hj'].
        -- rewrite app_nth1 by exact Hj'. apply Hle, Hj'.
        -- replace j with (length p) by lia. rewrite Hx. lra.
      * intros j Hj. rewrite app_nth1 by lia. apply Hlt, Hj.
Qed.

(** [np.argmax] returns the first index of a maximum. *)
Lemma np_argmax_spec l :
  l <> [] ->
  (np_argmax l < length l)%nat /\
  (forall j, (j < length l)%nat -> nth j l 0 <= nth (np_argmax l) l 0) /\
  (forall j, (j < np_argmax l)%nat -> nth j l 0 < nth (np_argmax l) l 0).
Proof.
  destruct l as [|x r]; intros Hne; [congruence|].
  apply (argmax_go_spec r [x] 0 x); [discriminate | simpl; lia | reflexivity | |].
  - intros j Hj. simpl in Hj. replace j with 0%nat by lia. simpl. lra.
  - intros j Hj. lia.
Qed.

Lemma argmax_go_scale r (S : R) : forall i bi b,
  0 < S -> argmax_go (map (fun v => v / S) r) i bi (b / S) = argmax_go r i bi b.
Proof.
  induction r as [|x r IH]; intros i bi b HS; simpl; [reflexivity|].
  assert (Hiff : b / S < x / S <-> b < x).
  { split; intros Hl.
    - apply (Rmult_lt_reg_r (/ S)); [apply Rinv_0_lt_compat; lra | exact Hl].
    - apply Rmult_lt_compat_r; [apply Rinv_0_lt_compat; lra | exact Hl]. }
  destruct (Rlt_dec (b / S) (x / S)), (Rlt_dec b x); try tauto; apply IH; exact HS.
Qed.

Lemma np_argmax_scale l (S : R) : 0 < S -> np_argmax (map (fun v => v / S) l) = np_argmax l.
Proof. destruct l as [|x r]; intros HS; simpl; [reflexivity|]. now apply argmax_go_scale. Qed.

Lemma np_roll_zero l : np_roll l 0 = l.
Proof.
  unfold np_roll. destruct (Nat.eq_dec (length l) 0) as [E|E].
  - apply length_zero_iff_nil in E. now subst.
  - rewrite Z.mod_0_l by lia. simpl. rewrite Nat.sub_0_r, skipn_all, firstn_all. reflexivity.
Qed.

(** [np.roll(l, s)[j] = l[(j - s) mod n]]. *)
Lemma np_roll_nth l s j :
  (j < length l)%nat ->
  nth j (np_roll l s) 0 =
  nth ((j + (length l - Z.to_nat (s mod Z.of_nat (length l)))) mod length l) l 0.
Proof.
  intros Hj. unfold np_roll.
  assert (Hk : (Z.to_nat (s mod Z.of_nat (length l)) < length l)%nat).
  { pose proof (Z.mod_pos_bound s (Z.of_nat (length l)) ltac:(lia)). lia. }
  set (k := Z.to_nat (s mod Z.of_nat (length l))) in *.
  destruct (Nat.lt_ge_cases j k) as [Hjk|Hjk].
  - rewrite app_nth1 by (rewrite length_skipn; lia). rewrite nth_skipn.
    rewrite Nat.mod_small by lia. f_equal. lia.
  - rewrite app_nth2 by (rewrite length_skipn; lia). rewrite length_skipn, nth_firstn.
    replace (j - (length l - (length l - k)) <? length l - k)%nat with true
      by (symmetry; apply Nat.ltb_lt; lia).
    replace (j + (length l - k))%nat with ((j - k) + 1 * length l)%nat by lia.
    rewrite Nat.Private_NDivProp.mod_add, Nat.mod_small by lia. f_equal. lia.
Qed.

Lemma rot_index (n am : nat) (peak : Z) :
  (am < n)%nat ->
  ((Z.to_nat (peak mod Z.of_nat n) + (n - Z.to_nat ((peak - Z.of_nat am) mod Z.of_nat n))) mod n
   = am)%nat.
Proof.
  intros H.
  assert (Hn0 : (0 < Z.of_nat n)%Z) by lia.
  pose proof (Z.mod_pos_bound peak (Z.of_nat n) Hn0) as B1.
  pose proof (Z.mod_pos_bound (peak - Z.of_nat am) (Z.of_nat n) Hn0) as B2.
  apply Nat2Z.inj.
  rewrite Nat2Z.inj_mod, Nat2Z.inj_add, Nat2Z.inj_sub, !Z2Nat.id by lia.
  rewrite (Z.mod_eq peak), (Z.mod_eq (peak - Z.of_nat am)) by lia.
  set (q1 := (peak / Z.of_nat n)%Z). set (q2 := ((peak - Z.of_nat am) / Z.of_nat n)%Z).
  match goal with |- (?e mod _)%Z = _ =>
    replace e with (Z.of_nat am + (1 - q1 + q2) * Z.of_nat n)%Z by ring end.
  rewrite Z.mod_add by lia. apply Z.mod_small. lia.
Qed.

(** The [(2, 4)] density on [[1e-12, 1 - 1e-12]] is [x (1 - x)^3]. *)
Lemma dens24 x :
  1e-12 <= x <= 1 - 1e-12 -> exp (beta_logpdf 2 4 x) = x * ((1 - x) * ((1 - x) * (1 - x))).
Proof.
  intros Hx. unfold beta_logpdf, np_clip.
  rewrite (Rmax_left x), Rmin_left, (Rmax_left (1 - x)), Rmin_left by lra.
  replace (2 - 1) with 1 by ring. replace (4 - 1) with (INR 3) by (simpl; ring).
  rewrite exp_plus, Rmult_1_l, exp_ln by lra.
  rewrite <- ln_pow by lra. rewrite exp_ln by (apply pow_lt; lra). simpl. ring.
Qed.

Lemma beta_pdf_8_2_4_values :
  map (fun i => exp (beta_logpdf 2 4 (mid_bin 8 i))) (seq 0 8) =
  map (fun v => v / 65536) [3375; 6591; 6655; 5103; 3087; 1375; 351; 15].
Proof.
  cbn [map seq].
  repeat match goal with
  | |- (_ :: _ = _ :: _)%list =>
      apply (f_equal2 (@cons R));
      [rewrite dens24 by (unfold mid_bin; simpl INR; lra); unfold mid_bin; simpl INR; lra|]
  end.
  reflexivity.
Qed.

Lemma argmax_8_2_4 : np_argmax (beta_pdf 8 2 4) = 2%nat.
Proof.
  rewrite beta_pdf_explicit by lia. rewrite beta_pdf_8_2_4_values.
  rewrite np_argmax_scale by (unfold np_sum; simpl; lra).
  rewrite np_argmax_scale by lra.
  unfold np_argmax.
  repeat (cbn [argmax_go];
          match goal with |- context [Rlt_dec ?x ?y] =>
            destruct (Rlt_dec x y); try (exfalso; lra) end).
  reflexivity.
Qed.

Lemma np_max_spec l :
  l <> [] -> In (np_max l) l /\ (forall v, In v l -> v <= np_max l).
Proof.
  induction l as [|x [|y r] IH]; intros Hne; [congruence| |].
  - simpl. split; [auto|]. intros v [<-|[]]. lra.
  - destruct (IH ltac:(discriminate)) as [Hin Hb].
    change (np_max (x :: y :: r)) with (Rmax x (np_max (y :: r))).
    split.
    + unfold Rmax. destruct (Rle_dec x (np_max (y :: r))); [right; exact Hin | left; reflexivity].
    + intros v [<-|Hv]; [apply Rmax_l|]. eapply Rle_trans; [apply Hb, Hv | apply Rmax_r].
Qed.

(** ** Claims *)

(** C1 (depth conservation).  Every series [build_storm] returns for a valid
    request has increments summing to [depth] (exactly, in the real-number
    model) and a cumulative column ending at [depth]; and every official table,
    resampled to any [n >= 1] bins, gives [n] increments whose running sum is
    non-decreasing and ends at [depth]. *)
Theorem depth_conservation :
  (forall fs depth d ts dist peak path start df,
     0 < depth -> 0 < d -> 0 < ts -> registered dist ->
     build_storm fs depth d ts dist peak path start = Ok df ->
     np_sum (volume_in df) = depth /\ last (cumulative_in df) 0 = depth) /\
  (forall name table n depth,
     assoc name PROPORTION_TABLES = Some table -> (1 <= n)%nat -> 0 < depth ->
     exists inc, storm_from_table depth n table = Ok inc /\ length inc = n /\
       nondecr (np_cumsum inc) /\ last (np_cumsum inc) 0 = depth).
Proof.
  split.
  - intros fs depth d ts dist peak path start df _ _ _ _ H.
    apply build_storm_ok in H.
    destruct H as (_ & _ & Hl & Hs & _ & Hc & _).
    split; [exact Hs|]. rewrite Hc. unfold np_cumsum.
    rewrite cumsum_from_last; [lra|].
    intros E. rewrite E in Hl. simpl in Hl. pose proof (bin_count_pos d ts). lia.
  - intros name table n depth Ht Hn Hd.
    destruct (official_table_no_raise name table depth n Ht) as [inc Hinc].
    exists inc. split; [exact Hinc|].
    destruct (storm_from_table_ok _ _ _ _ Hn Hinc) as [Hl Hs].
    destruct (official_table_ok name table Ht) as (_ & _ & Hlast).
    pose proof (storm_from_table_nonneg depth n table inc ltac:(lra) ltac:(lra) Hinc) as Hnn.
    split; [exact Hl|]. split; [now apply cumsum_nondecr|].
    unfold np_cumsum. rewrite cumsum_from_last; [lra|].
    intros E. rewrite E in Hl. simpl in Hl. lia.
Qed.

(** C10 (the peak argument is unused).  [build_storm] returns the same result
    for any two values of [peak], all other arguments equal. *)
Theorem peak_argument_unused fs depth d ts dist p1 p2 path start :
  build_storm fs depth d ts dist p1 path start = build_storm fs depth d ts dist p2 path start.
Proof. reflexivity. Qed.



(** C3 (single bin), amended.  When the bin count is 1 the intensity is
    [depth / max(duration_hr, 1e-12)], which is [depth / duration_hr] for every
    duration of at least [1e-12] hours, and the one increment is [depth];
    [build_storm(2.0, 1.0, 60.0)] gives one bin with intensity 2 and volume 2,
    and returns for every registered distribution other than ["user"]. *)
Theorem single_bin_intensity :
  (forall fs depth d ts dist peak path start df,
     build_storm fs depth d ts dist peak path start = Ok df ->
     bin_count d ts = 1%nat ->
     intensity_in_hr df = [depth / Rmax d 1e-12] /\ volume_in df = [depth] /\
     (1e-12 <= d -> intensity_in_hr df = [depth / d])) /\
  (forall fs dist peak path start df,
     build_storm fs 2 1 60 dist peak path start = Ok df ->
     length (time_min df) = 1%nat /\ intensity_in_hr df = [2] /\ volume_in df = [2]) /\
  (forall fs dist peak path start,
     registered dist -> dist <> "user" ->
     exists df, build_storm fs 2 1 60 dist peak path start = Ok df).
Proof.
  assert (Hgen : forall fs depth d ts dist peak path start df,
     build_storm fs depth d ts dist peak path start = Ok df ->
     bin_count d ts = 1%nat ->
     intensity_in_hr df = [depth / Rmax d 1e-12] /\ volume_in df = [depth] /\
     (1e-12 <= d -> intensity_in_hr df = [depth / d])).
  { intros fs depth d ts dist peak path start df H Hn.
    apply build_storm_ok in H. rewrite Hn in H.
    destruct H as (Hd & Hts & Hl & Hs & Hi & _). simpl in Hi.
    split; [exact Hi|]. split; [now apply list_one_sum|].
    intros Hd'. rewrite Hi, Rmax_left by lra. reflexivity. }
  split; [exact Hgen|]. split.
  - intros fs dist peak path start df H.
    assert (Hn : bin_count 1 60 = 1%nat) by (apply bin_count_one; lra).
    destruct (Hgen _ _ _ _ _ _ _ _ _ H Hn) as (Hi & Hv & Hi').
    apply build_storm_ok in H. destruct H as (_ & _ & _ & _ & _ & _ & Ht & _).
    rewrite Ht, Hn. split; [reflexivity|]. split; [|exact Hv].
    rewrite Hi' by lra. f_equal. lra.
  - intros fs dist peak path start Hr Hu.
    apply registered_non_user_ok; auto; lra.
Qed.

(** C3, the counterexample: with [duration_hr = 1e-13] and [timestep_min = 1]
    there is one bin, and its intensity is [depth / 1e-12], not
    [depth / duration_hr]. *)
Lemma single_bin_tiny_duration :
  bin_count 1e-13 1 = 1%nat /\
  exists df, build_storm (fun _ => Raise ReadError) 1 1e-13 1 "huff_q1" None None None = Ok df /\
    intensity_in_hr df = [1 / 1e-12] /\ intensity_in_hr df <> [1 / 1e-13].
Proof.
  assert (Hn : bin_count 1e-13 1 = 1%nat) by (apply bin_count_one; lra).
  split; [exact Hn|].
  destruct (build_beta (fun _ => Raise ReadError) 1 1e-13 1 "huff_q1" None None None 1.5 5
              ltac:(lra) ltac:(lra) eq_refl eq_refl eq_refl) as [df Hdf].
  exists df. split; [exact Hdf|].
  apply build_storm_ok in Hdf. rewrite Hn in Hdf.
  destruct Hdf as (_ & _ & _ & _ & Hi & _). simpl in Hi.
  rewrite Hi, Rmax_right by lra. split; [reflexivity|].
  intros H. injection H as H. lra.
Qed.

(** C4 (bin count and time grid).  A returned series has
    [n = max(1, ceil(duration_hr*60 / timestep_min))] rows in every column,
    which cover the duration without a spare whole bin; [time_min[i] = i *
    timestep_min]; with a start time, [timestamp[i] = start + i * timestep_min]
    minutes, and without one there is no timestamp column. *)
Theorem bin_count_and_time_grid fs depth d ts dist peak path start df
    (H : build_storm fs depth d ts dist peak path start = Ok df) :
  let n := Z.to_nat (Z.max 1 (math_ceil (d * 60 / ts))) in
  length (time_min df) = n /\ length (intensity_in_hr df) = n /\
  length (volume_in df) = n /\ length (cumulative_in df) = n /\
  INR (n - 1) * ts < d * 60 <= INR n * ts /\
  (forall i, (i < n)%nat -> nth i (time_min df) 0 = INR i * ts) /\
  (forall s, start = Some s ->
     exists stamps, timestamp df = Some stamps /\ length stamps = n /\
       forall i, (i < n)%nat -> nth i stamps 0 = s + INR i * ts) /\
  (start = None -> timestamp df = None).
Proof.
  intros n.
  apply build_storm_ok in H.
  destruct H as (Hd & Hts & Hl & _ & Hi & Hc & Ht & Hst).
  change (bin_count d ts) with n in *.
  assert (Hn : (1 <= n)%nat) by apply bin_count_pos.
  assert (Htl : length (time_min df) = n) by (rewrite Ht, length_map, length_seq; auto).
  split; [exact Htl|]. split.
  { rewrite Hi. destruct (Nat.eqb_spec n 1); [auto | now rewrite length_map]. }
  split; [exact Hl|]. split.
  { rewrite Hc. unfold np_cumsum. now rewrite cumsum_from_length. }
  split.
  { destruct (math_ceil_spec (d * 60 / ts)) as [C1 C2].
    set (c := math_ceil (d * 60 / ts)) in *.
    assert (Hpos : 0 < d * 60 / ts) by (apply Rdiv_lt_0_compat; lra).
    assert (Hc1 : (1 <= c)%Z).
    { destruct (Z_lt_le_dec c 1) as [Hlt|Hle]; [|exact Hle].
      assert (Hc0 : (c <= 0)%Z) by lia. apply IZR_le in Hc0. lra. }
    assert (Hnc : INR n = IZR c).
    { unfold n. rewrite Z.max_r by lia. rewrite INR_IZR_INZ, Z2Nat.id by lia. reflexivity. }
    assert (Hn1 : INR (n - 1) = IZR c - 1) by (rewrite minus_INR by lia; simpl; lra).
    rewrite Hn1, Hnc.
    assert (Hr : d * 60 = (d * 60 / ts) * ts) by (field; lra).
    split; rewrite Hr; [apply Rmult_lt_compat_r | apply Rmult_le_compat_r]; lra. }
  split.
  { intros i Hi'. rewrite Ht.
    rewrite nth_indep with (d' := (fun i => INR i * ts) 0%nat)
      by (rewrite length_map, length_seq; lia).
    rewrite (map_nth (fun i => INR i * ts) (seq 0 n) 0%nat i), seq_nth by lia. reflexivity. }
  split.
  { intros s0 Hs0. rewrite Hst, Hs0. simpl. eexists. split; [reflexivity|].
    rewrite length_map. split; [exact Htl|].
    intros i Hi'.
    rewrite nth_indep with (d' := (fun m => s0 + m) 0) by (rewrite length_map; lia).
    rewrite (map_nth (fun m => s0 + m) (time_min df) 0 i). f_equal.
    rewrite Ht, nth_indep with (d' := (fun i => INR i * ts) 0%nat)
      by (rewrite length_map, length_seq; lia).
    rewrite (map_nth (fun i => INR i * ts) (seq 0 n) 0%nat i), seq_nth by lia. reflexivity. }
  intros Hs0. now rewrite Hst, Hs0.
Qed.

Lemma bin_count_and_time_grid_witness :
  exists df, build_storm (fun _ => Raise ReadError) 1 1 15 "huff_q2" None None (Some 0) = Ok df /\
    let n := Z.to_nat (Z.max 1 (math_ceil (1 * 60 / 15))) in
    length (time_min df) = n /\ length (intensity_in_hr df) = n /\
    length (volume_in df) = n /\ length (cumulative_in df) = n /\
    INR (n - 1) * 15 < 1 * 60 <= INR n * 15 /\
    (forall i, (i < n)%nat -> nth i (time_min df) 0 = INR i * 15) /\
    (forall s, Some 0 = Some s ->
       exists stamps, timestamp df = Some stamps /\ length stamps = n /\
         forall i, (i < n)%nat -> nth i stamps 0 = s + INR i * 15) /\
    (Some 0 = None -> timestamp df = None).
Proof.
  destruct (build_beta (fun _ => Raise ReadError) 1 1 15 "huff_q2" None None (Some 0) 2 3
              ltac:(lra) ltac:(lra) eq_refl eq_refl eq_refl) as [df Hdf].
  exists df. split; [exact Hdf|].
  exact (bin_count_and_time_grid _ _ _ _ _ _ _ _ df Hdf).
Defined.

(** C5 (peak repositioning).  For [n >= 1] the peak-shifted Beta shape is the
    unshifted one rotated by [shift = (peak - argmax(pdf)) mod n]: its element
    [j] is the unshifted element [(j - shift) mod n]; [argmax] is the first
    maximum; and the rotated shape is maximal at index [peak mod n]. *)
Theorem peak_shift_rotation n a b peak (Hn : (1 <= n)%nat) :
  let pdf := beta_pdf n a b in
  let shift := ((peak - Z.of_nat (np_argmax pdf)) mod Z.of_nat n)%Z in
  beta_curve n a b peak = np_roll pdf shift /\
  (forall j, (j < n)%nat ->
     nth j (beta_curve n a b peak) 0 = nth ((j + (n - Z.to_nat shift)) mod n) pdf 0) /\
  (forall j, (j < n)%nat -> nth j pdf 0 <= nth (np_argmax pdf) pdf 0) /\
  (forall j, (j < np_argmax pdf)%nat -> nth j pdf 0 < nth (np_argmax pdf) pdf 0) /\
  (forall j, (j < n)%nat ->
     nth j (beta_curve n a b peak) 0 <=
     nth (Z.to_nat (peak mod Z.of_nat n)) (beta_curve n a b peak) 0).
Proof.
  intros pdf shift.
  assert (Hlen : length pdf = n) by (apply beta_pdf_ok; exact Hn).
  assert (Hne : pdf <> []) by (intros E; rewrite E in Hlen; simpl in Hlen; lia).
  destruct (np_argmax_spec pdf Hne) as (Ham & Hmax & Hfirst). rewrite Hlen in Ham, Hmax.
  assert (Heq : beta_curve n a b peak = np_roll pdf shift).
  { unfold beta_curve. cbv zeta. fold pdf. fold shift.
    replace (n <=? 0)%nat with false by (symmetry; apply Nat.leb_gt; lia).
    destruct (Z.eqb_spec shift 0) as [E|E]; [rewrite E; symmetry; apply np_roll_zero | reflexivity]. }
  assert (Hrot : forall j, (j < n)%nat ->
     nth j (beta_curve n a b peak) 0 = nth ((j + (n - Z.to_nat shift)) mod n) pdf 0).
  { intros j Hj. rewrite Heq, np_roll_nth by lia. rewrite Hlen.
    unfold shift. rewrite Z.mod_mod by lia. reflexivity. }
  split; [exact Heq|]. split; [exact Hrot|]. split; [exact Hmax|]. split; [exact Hfirst|].
  intros j Hj.
  assert (Hp : (Z.to_nat (peak mod Z.of_nat n) < n)%nat).
  { pose proof (Z.mod_pos_bound peak (Z.of_nat n) ltac:(lia)). lia. }
  rewrite (Hrot j Hj), (Hrot _ Hp). unfold shift. rewrite rot_index by exact Ham.
  apply Hmax, Nat.mod_upper_bound. lia.
Qed.

Lemma peak_shift_rotation_witness :
  np_argmax (beta_pdf 8 2 4) = 2%nat /\
  ((5 - Z.of_nat (np_argmax (beta_pdf 8 2 4))) mod Z.of_nat 8 = 3)%Z /\
  (1 <= 8)%nat /\
  let pdf := beta_pdf 8 2 4 in
  let shift := ((5 - Z.of_nat (np_argmax pdf)) mod Z.of_nat 8)%Z in
  beta_curve 8 2 4 5 = np_roll pdf shift /\
  (forall j, (j < 8)%nat ->
     nth j (beta_curve 8 2 4 5) 0 = nth ((j + (8 - Z.to_nat shift)) mod 8) pdf 0) /\
  (forall j, (j < 8)%nat -> nth j pdf 0 <= nth (np_argmax pdf) pdf 0) /\
  (forall j, (j < np_argmax pdf)%nat -> nth j pdf 0 < nth (np_argmax pdf) pdf 0) /\
  (forall j, (j < 8)%nat ->
     nth j (beta_curve 8 2 4 5) 0 <= nth (Z.to_nat (5 mod Z.of_nat 8)) (beta_curve 8 2 4 5) 0).
Proof.
  split; [exact argmax_8_2_4|]. split; [rewrite argmax_8_2_4; reflexivity|].
  split; [lia|].
  exact (peak_shift_rotation 8 2 4 5 ltac:(lia)).
Defined.

(** C6 (Beta sampling and normalisation).  For [n >= 1] the Beta shape has [n]
    values; value [i] is the density at the bin midpoint [(i + 0.5)/n], which
    lies strictly inside [(0, 1)], divided by the sum of the densities at all
    midpoints; the values sum to 1; and with [alpha = beta = 1] every value is
    [1/n], so [0.1] for [n = 10]. *)
Theorem beta_mid_bin_sampling n a b (Hn : (1 <= n)%nat) :
  length (beta_pdf n a b) = n /\
  (forall i, (i < n)%nat ->
     mid_bin n i = (INR i + 0.5) / INR n /\ 0 < mid_bin n i < 1 /\
     nth i (beta_pdf n a b) 0 =
       exp (beta_logpdf a b (mid_bin n i)) /
       np_sum (map (fun j => exp (beta_logpdf a b (mid_bin n j))) (seq 0 n))) /\
  np_sum (beta_pdf n a b) = 1 /\
  beta_pdf n 1 1 = repeat (1 / INR n) n /\
  beta_pdf 10 1 1 = repeat 0.1 10.
Proof.
  destruct (beta_pdf_ok n a b Hn) as [Hl Hs].
  split; [exact Hl|]. split.
  { intros i Hi. split; [reflexivity|]. split; [now apply mid_bin_bounds|].
    rewrite beta_pdf_explicit by exact Hn. rewrite map_map.
    now rewrite (nth_map_seq (fun i => exp (beta_logpdf a b (mid_bin n i)) /
       np_sum (map (fun j => exp (beta_logpdf a b (mid_bin n j))) (seq 0 n)))). }
  split; [exact Hs|]. split; [now apply beta_pdf_uniform|].
  rewrite beta_pdf_uniform by lia. f_equal. simpl INR. lra.
Qed.

Lemma beta_mid_bin_sampling_witness :
  (1 <= 10)%nat /\
  length (beta_pdf 10 1 1) = 10%nat /\
  (forall i, (i < 10)%nat ->
     mid_bin 10 i = (INR i + 0.5) / INR 10 /\ 0 < mid_bin 10 i < 1 /\
     nth i (beta_pdf 10 1 1) 0 =
       exp (beta_logpdf 1 1 (mid_bin 10 i)) /
       np_sum (map (fun j => exp (beta_logpdf 1 1 (mid_bin 10 j))) (seq 0 10))) /\
  np_sum (beta_pdf 10 1 1) = 1 /\
  beta_pdf 10 1 1 = repeat (1 / INR 10) 10 /\
  beta_pdf 10 1 1 = repeat 0.1 10.
Proof. split; [lia|]. exact (beta_mid_bin_sampling 10 1 1 ltac:(lia)). Defined.

(** C9 (custom-curve normalisation).  For a readable user curve with data
    rows, [_user_pdf] interpolates the two columns after [normalize_col] on
    the [n + 1]-point grid over [[0, 1]]; [normalize_col] divides a column by
    its maximum (an element of the column bounding every element) when that
    maximum exceeds 1 and returns it unchanged otherwise. *)
Theorem custom_curve_normalization fs n p rows
    (Hp : fs p = Ok rows) (Hne : rows <> []) :
  user_pdf fs n p =
    (let t := normalize_col (map fst rows) in
     let c := normalize_col (map snd rows) in
     let pdf := np_diff (map (fun g => np_interp g t c) (linspace 0 1 (n + 1))) in
     if Rle_dec (np_sum pdf) 0 then Ok (np_full n (1 / INR n))
     else Ok (map (fun v => v / np_sum pdf) pdf)) /\
  (forall col : list R, col <> [] ->
     In (np_max col) col /\ (forall v, In v col -> v <= np_max col) /\
     (1 < np_max col -> normalize_col col = map (fun v => v / np_max col) col) /\
     (np_max col <= 1 -> normalize_col col = col)).
Proof.
  split.
  - unfold user_pdf. rewrite Hp. destruct rows as [|r rs]; [congruence | reflexivity].
  - intros col Hc. destruct (np_max_spec col Hc) as [Hin Hb].
    split; [exact Hin|]. split; [exact Hb|].
    unfold normalize_col. split; intros H; destruct (Rlt_dec 1 (np_max col)); auto; lra.
Qed.

Lemma custom_curve_normalization_witness :
  let fs : filesystem := fun _ => Ok [(0, 0); (60, 2)] in
  fs "curve.csv" = Ok [(0, 0); (60, 2)] /\ [(0, 0); (60, 2)] <> [] /\
  normalize_col [0; 60] = [0; 1] /\ normalize_col [0; 2] = [0; 1] /\
  user_pdf fs 2 "curve.csv" =
    (let t := normalize_col (map fst [(0, 0); (60, 2)]) in
     let c := normalize_col (map snd [(0, 0); (60, 2)]) in
     let pdf := np_diff (map (fun g => np_interp g t c) (linspace 0 1 (2 + 1))) in
     if Rle_dec (np_sum pdf) 0 then Ok (np_full 2 (1 / INR 2))
     else Ok (map (fun v => v / np_sum pdf) pdf)).
Proof.
  intros fs. split; [reflexivity|]. split; [discriminate|].
  assert (H60 : normalize_col [0; 60] = [0; 1]).
  { unfold normalize_col. change (np_max [0; 60]) with (Rmax 0 60).
    rewrite Rmax_right by lra. destruct (Rlt_dec 1 60); [|lra].
    simpl. f_equal; [|f_equal]; field. }
  assert (H2 : normalize_col [0; 2] = [0; 1]).
  { unfold normalize_col. change (np_max [0; 2]) with (Rmax 0 2).
    rewrite Rmax_right by lra. destruct (Rlt_dec 1 2); [|lra].
    simpl. f_equal; [|f_equal]; field. }
  split; [exact H60|]. split; [exact H2|].
  exact (proj1 (custom_curve_normalization fs 2 "curve.csv" _ eq_refl ltac:(discriminate))).
Defined.

End StormFacts.

Module NoaaFacts.
Import Noaa Lqa.
Open Scope Q_scope.

(** ** Rows *)

Lemma combine_fst_snd {A B} (l : list (A * B)) : combine (map fst l) (map snd l) = l.
Proof. induction l as [|[a b] l IH]; simpl; [reflexivity | now rewrite IH]. Qed.

Lemma pad_row_length {A} (f : list ascii -> A) (d : A) k toks :
  length (map f (firstn k toks) ++ repeat d (k - length toks))%list = k.
Proof. rewrite length_app, length_map, length_firstn, repeat_length. lia. Qed.

Lemma pad_row_nth (f : list ascii -> option Q) k toks i :
  (i < k)%nat ->
  nth i (map f (firstn k toks) ++ repeat None (k - length toks))%list None =
  nth i (map f toks) None.
Proof.
  intros Hi. destruct (Nat.lt_ge_cases i (length toks)) as [Ht|Ht].
  - rewrite app_nth1 by (rewrite length_map, length_firstn; lia).
    rewrite <- firstn_map, nth_firstn.
    replace (i <? k)%nat with true by (symmetry; apply Nat.ltb_lt; exact Hi). reflexivity.
  - rewrite app_nth2 by (rewrite length_map, length_firstn; lia).
    rewrite nth_repeat, nth_overflow by (rewrite length_map; lia). reflexivity.
Qed.

(** Every row [parse_rows] produces comes from a line with a duration label;
    its cells are the first [k] numbers of the line, padded with NaN. *)
Lemma parse_rows_spec k lines :
  Forall (fun '(lab, row) =>
    exists ln raw rest, In ln lines /\ line_match ln = Some (raw, rest) /\
      dur_match (strip raw) <> None /\ lab = string_of_list_ascii (rstrip_colon (strip raw)) /\
      length row = k /\
      forall i, (i < k)%nat -> nth i row None = nth i (map float_of_token (num_tokens rest)) None)
    (parse_rows k lines).
Proof.
  induction lines as [|ln lines IH]; simpl; [constructor|].
  assert (Hw : forall P : string * list (option Q) -> Prop,
             Forall P (parse_rows k lines) ->
             Forall (fun p => P p) (parse_rows k lines)) by auto.
  destruct (line_match ln) as [[raw rest]|] eqn:Hm.
  - destruct (dur_match (strip raw)) as [dm|] eqn:Hd.
    + constructor.
      * exists ln, raw, rest. split; [left; reflexivity|]. split; [exact Hm|].
        split; [congruence|]. split; [reflexivity|]. split; [apply pad_row_length|].
        intros i Hi. now apply pad_row_nth.
      * eapply Forall_impl; [|exact IH]. intros [lab row] (l & r & t & Hin & H).
        exists l, r, t. split; [right; exact Hin | exact H].
    + eapply Forall_impl; [|exact IH]. intros [lab row] (l & r & t & Hin & H).
      exists l, r, t. split; [right; exact Hin | exact H].
  - eapply Forall_impl; [|exact IH]. intros [lab row] (l & r & t & Hin & H).
    exists l, r, t. split; [right; exact Hin | exact H].
Qed.

(** ** Order on finite-or-infinite distances *)

Lemma ext_lt_trans a b c : ext_lt a b = true -> ext_lt b c = true -> ext_lt a c = true.
Proof.
  destruct a as [x|], b as [y|], c as [z|]; simpl; try discriminate; auto.
  rewrite !negb_true_iff, <- !not_true_iff_false, !Qle_bool_iff.
  intros H1 H2 H3. apply Qnot_le_lt in H1. apply Qnot_le_lt in H2.
  apply (Qlt_irrefl x). apply Qlt_le_trans with z; [apply Qlt_trans with y; assumption | exact H3].
Qed.

Lemma ext_lt_cotrans a b c : ext_lt a c = true -> ext_lt a b = true \/ ext_lt b c = true.
Proof.
  destruct a as [x|], b as [y|], c as [z|]; simpl; try discriminate; auto.
  rewrite !negb_true_iff, <- !not_true_iff_false, !Qle_bool_iff.
  intros H. apply Qnot_le_lt in H.
  destruct (Qlt_le_dec x y) as [Hxy|Hxy].
  - left. intros Hyx. apply (Qlt_irrefl x). apply Qlt_le_trans with y; assumption.
  - right. intros Hzy. apply (Qlt_irrefl x). apply Qlt_le_trans with z; [exact H|].
    apply Qle_trans with y; assumption.
Qed.

Lemma ext_eq_refl a : ext_eq a a = true.
Proof. destruct a; simpl; [apply Qeq_bool_refl | reflexivity]. Qed.

Lemma ext_lt_eq_l a a' c : ext_eq a a' = true -> ext_lt a c = ext_lt a' c.
Proof.
  destruct a as [x|], a' as [y|], c as [z|]; simpl; try discriminate; auto.
  intros E. apply Qeq_bool_iff in E.
  destruct (Qle_bool z x) eqn:H1, (Qle_bool z y) eqn:H2; auto;
    apply Qle_bool_iff in H1 || apply Qle_bool_iff in H2;
    [ rewrite <- not_true_iff_false, Qle_bool_iff in H2; exfalso; apply H2; rewrite <- E; exact H1
    | rewrite <- not_true_iff_false, Qle_bool_iff in H1; exfalso; apply H1; rewrite E; exact H2 ].
Qed.

Lemma ext_lt_eq_r a c c' : ext_eq c c' = true -> ext_lt a c = ext_lt a c'.
Proof.
  destruct a as [x|], c as [y|], c' as [z|]; simpl; try discriminate; auto.
  intros E. apply Qeq_bool_iff in E.
  destruct (Qle_bool y x) eqn:H1, (Qle_bool z x) eqn:H2; auto;
    apply Qle_bool_iff in H1 || apply Qle_bool_iff in H2;
    [ rewrite <- not_true_iff_false, Qle_bool_iff in H2; exfalso; apply H2; rewrite <- E; exact H1
    | rewrite <- not_true_iff_false, Qle_bool_iff in H1; exfalso; apply H1; rewrite E; exact H2 ].
Qed.

Lemma ext_trichotomy a b : ext_lt a b = false -> ext_eq a b = false -> ext_lt b a = true.
Proof.
  destruct a as [x|], b as [y|]; simpl; try discriminate; auto.
  rewrite negb_false_iff, Qle_bool_iff. intros H1 H2.
  rewrite negb_true_iff, <- not_true_iff_false, Qle_bool_iff. intros H3.
  rewrite <- not_true_iff_false in H2. apply H2, Qeq_bool_iff, Qle_antisym; assumption.
Qed.

Lemma fold_min_spec r : forall cur,
  let m := fold_left (fun cur y => if ext_lt y cur then y else cur) r cur in
  In m (cur :: r) /\ forall y, In y (cur :: r) -> ext_lt y m = false.
Proof.
  induction r as [|y r IH]; intros cur m.
  - subst m. simpl. split; [left; reflexivity|].
    intros z Hz. destruct Hz as [<-|[]]. destruct cur as [x|]; simpl; [|reflexivity].
    rewrite negb_false_iff. apply Qle_bool_iff, Qle_refl.
  - subst m. simpl. destruct (ext_lt y cur) eqn:Hyc.
    + destruct (IH y) as [Hin Hle]. split.
      * destruct Hin as [<-|Hin]; [right; left; reflexivity | right; right; exact Hin].
      * intros z Hz. destruct Hz as [<-|[<-|Hz]].
        -- match goal with |- ext_lt ?a ?b = false => destruct (ext_lt a b) eqn:E end;
             [|reflexivity].
           pose proof (ext_lt_trans _ _ _ Hyc E) as F.
           rewrite Hle in F; [discriminate | left; reflexivity].
        -- apply Hle. left. reflexivity.
        -- apply Hle. right. exact Hz.
    + destruct (IH cur) as [Hin Hle]. split.
      * destruct Hin as [<-|Hin]; [left; reflexivity | right; right; exact Hin].
      * intros z Hz. destruct Hz as [<-|[<-|Hz]].
        -- apply Hle. left. reflexivity.
        -- match goal with |- ext_lt ?a ?b = false => destruct (ext_lt a b) eqn:E end;
             [|reflexivity].
           destruct (ext_lt_cotrans _ cur _ E) as [F|F]; [congruence|].
           rewrite Hle in F; [discriminate | left; reflexivity].
        -- apply Hle. right. exact Hz.
Qed.

Lemma py_min_spec l :
  l <> [] -> In (py_min l) l /\ forall y, In y l -> ext_lt y (py_min l) = false.
Proof. destruct l as [|x r]; intros H; [congruence|]. apply fold_min_spec. Qed.

Lemma index_of_spec m l :
  In m l ->
  (index_of m l < length l)%nat /\ ext_eq (nth (index_of m l) l None) m = true /\
  forall k, (k < index_of m l)%nat -> ext_eq (nth k l None) m = false.
Proof.
  induction l as [|x r IH]; intros Hin; [destruct Hin|]. simpl.
  destruct (ext_eq x m) eqn:E.
  - split; [lia|]. split; [exact E|]. intros k Hk. lia.
  - destruct Hin as [<-|Hin]; [rewrite ext_eq_refl in E; discriminate|].
    destruct (IH Hin) as (H1 & H2 & H3). split; [lia|]. split; [exact H2|].
    intros [|k] Hk; [exact E|]. apply H3. lia.
Qed.

(** [_nearest_row_index] picks the first smallest distance; an unparsable
    label ([inf]) is picked only when every label is unparsable. *)
Lemma nearest_row_index_spec df t :
  index df <> [] ->
  let diffs := map (row_distance t) (index df) in
  let i := nearest_row_index df t in
  (i < length (index df))%nat /\
  (forall k, (k < length (index df))%nat -> ext_lt (nth k diffs None) (nth i diffs None) = false) /\
  (forall k, (k < i)%nat -> ext_lt (nth i diffs None) (nth k diffs None) = true) /\
  (nth i diffs None = None -> forall k, (k < length (index df))%nat -> nth k diffs None = None).
Proof.
  intros Hne diffs i.
  assert (Hd : diffs <> []) by (unfold diffs; destruct (index df); [congruence | discriminate]).
  assert (Hlen : length diffs = length (index df)) by (unfold diffs; apply length_map).
  destruct (py_min_spec diffs Hd) as [Hin Hmin].
  destruct (index_of_spec _ _ Hin) as (Hi & Heq & Hfirst).
  change (index_of (py_min diffs) diffs) with i in Hi, Heq, Hfirst.
  assert (Hle : forall k, (k < length (index df))%nat ->
            ext_lt (nth k diffs None) (nth i diffs None) = false).
  { intros k Hk. rewrite (ext_lt_eq_r _ _ _ Heq). apply Hmin, nth_In. lia. }
  split; [lia|]. split; [exact Hle|]. split.
  - intros k Hk. rewrite (ext_lt_eq_l _ _ _ Heq).
    apply ext_trichotomy; [apply Hmin, nth_In; lia | apply Hfirst, Hk].
  - intros Hnone k Hk. specialize (Hle k Hk). rewrite Hnone in Hle.
    destruct (nth k diffs None); [discriminate | reflexivity].
Qed.

Lemma positions_from_absent i key cols :
  existsb (String.eqb key) cols = false -> positions_from i key cols = [].
Proof.
  revert i; induction cols as [|c cols IH]; intros i H; simpl in *; [reflexivity|].
  apply orb_false_iff in H as [H1 H2]. rewrite String.eqb_sym, H1. now apply IH.
Qed.

(** Python's [round] is within a half of its argument. *)
Lemma round_half_even_near q : Qabs (q - inject_Z (round_half_even q)) <= 1 # 2.
Proof.
  unfold round_half_even.
  pose proof (Qfloor_le q) as F1. pose proof (Qlt_floor q) as F2.
  rewrite inject_Z_plus in F2. change (inject_Z 1) with 1 in F2.
  set (f := Qfloor q) in *.
  apply Qabs_Qle_condition.
  destruct (Qle_bool (1 # 2) (q - inject_Z f)) eqn:E1; simpl.
  - apply Qle_bool_iff in E1.
    destruct (Qle_bool (q - inject_Z f) (1 # 2)) eqn:E2; simpl.
    + apply Qle_bool_iff in E2.
      destruct (Z.even f); [split; lra|].
      rewrite inject_Z_plus. change (inject_Z 1) with 1. split; lra.
    + rewrite <- not_true_iff_false, Qle_bool_iff in E2. apply Qnot_le_lt in E2.
      rewrite inject_Z_plus. change (inject_Z 1) with 1. split; lra.
  - rewrite <- not_true_iff_false, Qle_bool_iff in E1. apply Qnot_le_lt in E1.
    split; lra.
Qed.

(** ** Claims *)

(** C7 (DDF text parsing).  The example text, with the header
    [... ARI (years): 2 5 10 25], a [Latitude: 40.44] line and the line
    [6-hr: 1.2 1.8 2.3 3.0], parses to one row [6-hr] over the columns
    [2, 5, 10, 25] whose cell in column [10] is 2.3; the [Latitude] line
    matches the line pattern but its label is not a duration.  For every text
    that parses, each row comes from a line of the text whose label passes
    the duration pattern, and has one cell per column: the line's numbers in
    order, cut to the number of columns and padded with NaN. *)
Theorem ddf_text_parsing :
  parse_noaa_text ddf_example =
    Some {| columns := ["2"; "5"; "10"; "25"]; index := ["6-hr"];
            data := [[Some 1.2; Some 1.8; Some 2.3; Some 3.0]] |} /\
  nth 2 (nth 0 [[Some 1.2; Some 1.8; Some 2.3; Some 3.0]] []) None = Some 2.3 /\
  line_match (lit "Latitude: 40.44") = Some (lit "Latitude", lit "40.44") /\
  dur_match (lit "Latitude") = None /\
  (forall txt df, parse_noaa_text txt = Some df ->
     columns df <> [] /\ index df <> [] /\ length (data df) = length (index df) /\
     Forall (fun '(lab, row) =>
       exists ln raw rest, In ln (noaa_lines txt) /\ line_match ln = Some (raw, rest) /\
         dur_match (strip raw) <> None /\
         lab = string_of_list_ascii (rstrip_colon (strip raw)) /\
         length row = length (columns df) /\
         forall i, (i < length (columns df))%nat ->
           nth i row None = nth i (map float_of_token (num_tokens rest)) None)
       (combine (index df) (data df))).
Proof.
  split; [vm_compute; reflexivity|].
  split; [reflexivity|].
  split; [vm_compute; reflexivity|].
  split; [vm_compute; reflexivity|].
  intros txt df H. unfold parse_noaa_text in H.
  destruct (find (contains ARI) (noaa_lines txt)) as [header|]; [|discriminate].
  set (cols := map col_label _) in H.
  destruct cols as [|c cs] eqn:Hc; [discriminate|].
  rewrite <- Hc in H.
  destruct (parse_rows (length cols) (noaa_lines txt)) as [|p ps] eqn:Hr; [discriminate|].
  rewrite <- Hr in H. injection H as <-. cbn [columns index data].
  split; [rewrite Hc; discriminate|].
  split; [rewrite Hr; discriminate|].
  split; [now rewrite !length_map|].
  rewrite combine_fst_snd. apply parse_rows_spec.
Qed.

(** C8 (depth resolution).  The ARI key is [str] of the nearest integer; no
    table, an empty table or a missing column give [None]; when the key
    labels exactly one column, the row is the first one at the smallest
    distance from [duration_hr * 60] minutes (an unparsable label, at
    distance [inf], is chosen only when all are unparsable) and the result
    is the cell there, [None] for NaN.  When the key labels two or more
    columns, which a parsed table allows, the lookup raises [TypeError]
    instead of giving a value or [None]. *)
Theorem nearest_depth_resolution (fetch_table : Q -> Q -> option DF) lat lon dur ari :
  let r := fetch_noaa_depth fetch_table lat lon dur ari in
  let key := string_of_Z (round_half_even ari) in
  Qabs (ari - inject_Z (round_half_even ari)) <= 1 # 2 /\
  (fetch_table lat lon = None -> r = Ok None) /\
  (forall df, fetch_table lat lon = Some df -> df_empty df = true -> r = Ok None) /\
  (forall df, fetch_table lat lon = Some df -> ~ In key (columns df) -> r = Ok None) /\
  (forall df j, fetch_table lat lon = Some df -> df_empty df = false ->
     positions key (columns df) = [j] ->
     let diffs := map (row_distance (dur * 60)) (index df) in
     let i := nearest_row_index df (dur * 60) in
     (i < length (index df))%nat /\
     (forall k, (k < length (index df))%nat ->
        ext_lt (nth k diffs None) (nth i diffs None) = false) /\
     (forall k, (k < i)%nat -> ext_lt (nth i diffs None) (nth k diffs None) = true) /\
     (nth i diffs None = None ->
        forall k, (k < length (index df))%nat -> nth k diffs None = None) /\
     r = Ok (nth j (nth i (data df) []) None)) /\
  (forall df j k js, fetch_table lat lon = Some df -> df_empty df = false ->
     positions key (columns df) = j :: k :: js ->
     r = Raise (TypeError "cannot convert the series to <class 'float'>")).
Proof.
  intros r key.
  split; [apply round_half_even_near|].
  split; [intros H; unfold r, fetch_noaa_depth; now rewrite H|].
  split; [intros df H He; unfold r, fetch_noaa_depth; now rewrite H, He|].
  split.
  { intros df H Hk. unfold r, fetch_noaa_depth. rewrite H.
    destruct (df_empty df); [reflexivity|]. fold key.
    replace (existsb (String.eqb key) (columns df)) with false; [reflexivity|].
    symmetry. apply not_true_iff_false. intros E. apply existsb_exists in E as (c & Hc & E).
    apply String.eqb_eq in E. subst c. contradiction. }
  split.
  2:{ intros df j k js H He Hp. unfold r, fetch_noaa_depth. rewrite H, He. fold key.
      destruct (existsb (String.eqb key) (columns df)) eqn:Ex.
      - simpl. unfold positions in Hp. unfold positions. now rewrite Hp.
      - unfold positions in Hp. rewrite positions_from_absent in Hp by exact Ex. discriminate. }
  intros df j H He Hp diffs i.
  assert (Hne : index df <> []) by (unfold df_empty in He; destruct (index df); congruence).
  destruct (nearest_row_index_spec df (dur * 60) Hne) as (H1 & H2 & H3 & H4).
  split; [exact H1|]. split; [exact H2|]. split; [exact H3|]. split; [exact H4|].
  unfold r, fetch_noaa_depth. rewrite H, He. fold key.
  destruct (existsb (String.eqb key) (columns df)) eqn:Ex.
  - simpl. unfold positions in Hp. unfold positions. rewrite Hp. fold i.
    destruct (nth j (nth i (data df) []) None); reflexivity.
  - unfold positions in Hp. rewrite positions_from_absent in Hp by exact Ex. discriminate.
Qed.

Lemma nearest_depth_resolution_witness :
  let fetch_table := fun (_ _ : Q) => parse_noaa_text ddf_example in
  let df := {| columns := ["2"; "5"; "10"; "25"]; index := ["6-hr"];
               data := [[Some 1.2; Some 1.8; Some 2.3; Some 3.0]] |} in
  fetch_table 0 0 = Some df /\ df_empty df = false /\
  positions (string_of_Z (round_half_even 10)) (columns df) = [2%nat] /\
  nearest_row_index df (6 * 60) = 0%nat /\
  fetch_noaa_depth fetch_table 0 0 6 10 = Ok (nth 2 (nth (nearest_row_index df (6 * 60)) (data df) []) None).
Proof.
  intros fetch_table df.
  assert (Hf : fetch_table 0 0 = Some df) by (vm_compute; reflexivity).
  assert (He : df_empty df = false) by reflexivity.
  assert (Hp : positions (string_of_Z (round_half_even 10)) (columns df) = [2%nat])
    by (vm_compute; reflexivity).
  split; [exact Hf|]. split; [exact He|]. split; [exact Hp|].
  split; [vm_compute; reflexivity|].
  destruct (nearest_depth_resolution fetch_table 0 0 6 10) as (_ & _ & _ & _ & H5 & _).
  exact (proj2 (proj2 (proj2 (proj2 (H5 df 2%nat Hf He Hp))))).
Defined.

(** C8, the counterexample: a header whose ARI list repeats a period gives two
    columns with the same label; the lookup then raises [TypeError], also
    when the selected cells are NaN. *)
Lemma duplicate_column_raises :
  let txt := ("ARI (years): 2 2" ++ nl ++ "6-hr:" ++ nl)%string in
  parse_noaa_text txt =
    Some {| columns := ["2"; "2"]; index := ["6-hr"]; data := [[None; None]] |} /\
  fetch_noaa_depth (fun _ _ => parse_noaa_text txt) 0 0 6 2 =
    Raise (TypeError "cannot convert the series to <class 'float'>").
Proof. split; vm_compute; reflexivity. Qed.

End NoaaFacts.

(** * Further properties of the storm builder *)

Module StormExtra.
Import Storm StormFacts.
Open Scope R_scope.

(** ** Helpers *)

Lemma bind_map_result {A B C} (g : A -> B) (m : result A) (k : B -> result C) :
  bind (map_result g m) k = bind m (fun a => k (g a)).
Proof. destruct m; reflexivity. Qed.

Lemma cumsum_from_scale c l : forall acc,
  cumsum_from (c * acc) (map (fun v => c * v) l) = map (fun v => c * v) (cumsum_from acc l).
Proof.
  induction l as [|x r IH]; intros acc; simpl; [reflexivity|].
  replace (c * acc + c * x) with (c * (acc + x)) by ring. now rewrite IH.
Qed.

Lemma np_cumsum_scale c l :
  np_cumsum (map (fun v => c * v) l) = map (fun v => c * v) (np_cumsum l).
Proof. unfold np_cumsum. rewrite <- cumsum_from_scale. now rewrite Rmult_0_r. Qed.

Lemma storm_from_table_depth_scale c depth n table :
  storm_from_table (c * depth) n table =
  map_result (map (fun v => c * v)) (storm_from_table depth n table).
Proof.
  unfold storm_from_table.
  destruct (length table <? 2)%nat; [reflexivity|].
  destruct (negb _); [reflexivity|]. cbv zeta.
  destruct (Rle_dec _ 0); simpl.
  - unfold np_full. rewrite map_repeat. f_equal. f_equal. unfold Rdiv. ring.
  - rewrite map_map. f_equal. apply map_ext. intros v. unfold Rdiv. ring.
Qed.

Lemma beta_pdf_pos n a b : Forall (fun v => 0 < v) (beta_pdf n a b).
Proof.
  unfold beta_pdf. cbv zeta. destruct (Rle_dec _ 0) as [Hs|Hs].
  - apply Forall_forall. intros v Hv. destruct n as [|n]; [contradiction|].
    unfold np_full in Hv. apply repeat_spec in Hv as ->.
    apply Rdiv_lt_0_compat; [lra | apply lt_0_INR; lia].
  - apply Forall_forall. intros v Hv. apply in_map_iff in Hv as [x [<- Hx]].
    apply in_map_iff in Hx as [y [<- _]].
    apply Rdiv_lt_0_compat; [apply exp_pos | lra].
Qed.

Lemma np_sum_app l1 l2 : np_sum (l1 ++ l2)%list = np_sum l1 + np_sum l2.
Proof. unfold np_sum. rewrite fold_right_app. induction l1; simpl; [ring|]. rewrite IHl1. ring. Qed.

Lemma swap_perm (a b : list R) :
  length (b ++ a)%list = length (a ++ b)%list /\ np_sum (b ++ a)%list = np_sum (a ++ b)%list /\
  (forall P : R -> Prop, Forall P (a ++ b)%list -> Forall P (b ++ a)%list).
Proof.
  rewrite !length_app, !np_sum_app. repeat split; [lia | ring |].
  intros P HP. rewrite Forall_app in HP |- *. tauto.
Qed.

Lemma np_roll_perm l s :
  length (np_roll l s) = length l /\ np_sum (np_roll l s) = np_sum l /\
  (forall P : R -> Prop, Forall P l -> Forall P (np_roll l s)).
Proof.
  unfold np_roll. set (k := (length l - _)%nat).
  pose proof (swap_perm (firstn k l) (skipn k l)) as H.
  rewrite firstn_skipn in H. exact H.
Qed.

(** The volumes of a series built from an official table or a Beta preset
    are non-negative when the depth is. *)
Lemma build_volume_nonneg fs depth d ts dist peak path start df :
  0 <= depth -> dist <> "user" ->
  build_storm fs depth d ts dist peak path start = Ok df ->
  Forall (fun v => 0 <= v) (volume_in df).
Proof.
  intros Hd Hu H. unfold build_storm in H.
  destruct (Rle_dec d 0); [discriminate|]. destruct (Rle_dec ts 0); [discriminate|].
  cbv zeta in H. apply bind_ok in H as [inc [Hinc Hdf]]. injection Hdf as <-. simpl.
  destruct (assoc dist PROPORTION_TABLES) as [table|] eqn:Ht.
  - eapply storm_from_table_nonneg; [exact Hd | | exact Hinc].
    destruct (official_table_ok _ _ Ht) as (_ & _ & ->). lra.
  - apply String.eqb_neq in Hu. rewrite Hu in Hinc.
    destruct (assoc dist BETA_PRESETS) as [[a b]|]; [|discriminate].
    injection Hinc as <-. apply Forall_map.
    eapply Forall_impl; [|apply beta_pdf_pos]. intros v Hv. simpl. nra.
Qed.

(** ** Interpolation on constant and diagonal data *)

Lemma combine_repeat_r (xs : list R) (c : R) (m : nat) :
  length xs = m -> combine xs (repeat c m) = map (fun a => (a, c)) xs.
Proof.
  revert m; induction xs as [|x r IH]; intros [|m] Hm; simpl in *; try discriminate; auto.
  f_equal. apply IH. lia.
Qed.

Lemma interp_seg_const x c xs : forall x0, interp_seg x x0 c (map (fun a => (a, c)) xs) = c.
Proof.
  induction xs as [|x1 r IH]; intros x0; simpl; [reflexivity|].
  destruct (Rlt_dec x x1); [unfold Rdiv; ring | apply IH].
Qed.

Lemma np_interp_const x xp c : xp <> [] -> np_interp x xp (repeat c (length xp)) = c.
Proof.
  intros Hne. unfold np_interp. rewrite combine_repeat_r by reflexivity.
  destruct xp as [|x0 xs]; [congruence|]. simpl.
  destruct (Rlt_dec x x0); [reflexivity | apply interp_seg_const].
Qed.

Lemma combine_diag (xs : list R) : combine xs xs = map (fun a => (a, a)) xs.
Proof. induction xs as [|x r IH]; simpl; [reflexivity|]. now rewrite IH. Qed.

Lemma interp_seg_id xs : forall x0 x,
  incr (x0 :: xs) -> x0 <= x <= last (x0 :: xs) 0 ->
  interp_seg x x0 x0 (map (fun a => (a, a)) xs) = x.
Proof.
  induction xs as [|x1 r IH]; intros x0 x Hinc Hx; simpl.
  - simpl in Hx. lra.
  - destruct Hinc as [H01 Hr]. destruct (Rlt_dec x x1).
    + field. lra.
    + apply IH; auto. change (last (x0 :: x1 :: r) 0) with (last (x1 :: r) 0) in Hx. lra.
Qed.

Lemma linspace_cons k :
  linspace 0 1 (S (S k)) =
  0 :: map (fun i => 0 + INR i * ((1 - 0) / INR (S (S k) - 1))) (seq 1 (S k)).
Proof. unfold linspace. cbn [seq map]. f_equal. simpl. ring. Qed.

Lemma linspace_last k : (2 <= k)%nat -> last (linspace 0 1 k) 0 = 1.
Proof.
  intros Hk. destruct k as [|[|k]]; try lia. unfold linspace.
  rewrite seq_S, map_app. cbn [map]. rewrite last_last.
  replace (S (S k) - 1)%nat with (S k) by lia. rewrite Nat.add_0_l.
  assert (0 < INR (S k)) by (apply lt_0_INR; lia). field. lra.
Qed.

Lemma linspace_bounds k g : In g (linspace 0 1 k) -> 0 <= g <= 1.
Proof.
  destruct k as [|[|k]]; [simpl; tauto | simpl; intros [<-|[]]; lra |].
  unfold linspace. intros Hg. apply in_map_iff in Hg as [i [<- Hi]]. apply in_seq in Hi.
  replace (S (S k) - 1)%nat with (S k) by lia.
  assert (Hk : 0 < INR (S k)) by (apply lt_0_INR; lia).
  assert (Hi' : INR i <= INR (S k)) by (apply le_INR; lia).
  pose proof (pos_INR i).
  replace (0 + INR i * ((1 - 0) / INR (S k))) with (INR i / INR (S k)) by (field; lra).
  split.
  - unfold Rdiv. apply Rmult_le_pos; [lra|]. left. now apply Rinv_0_lt_compat.
  - apply (Rmult_le_reg_r (INR (S k))); [exact Hk|].
    unfold Rdiv. rewrite Rmult_assoc, Rinv_l by lra. lra.
Qed.

(** Interpolating the diagonal [linspace] on itself is the identity on
    [[0, 1]]. *)
Lemma np_interp_linspace_id k g :
  (2 <= k)%nat -> 0 <= g <= 1 -> np_interp g (linspace 0 1 k) (linspace 0 1 k) = g.
Proof.
  intros Hk Hg. unfold np_interp. rewrite combine_diag.
  pose proof (linspace_incr k) as Hinc. pose proof (linspace_last k Hk) as Hlast.
  destruct k as [|[|k]]; try lia. rewrite linspace_cons in *.
  cbn [map]. destruct (Rlt_dec g 0); [lra|].
  apply interp_seg_id; [exact Hinc | lra].
Qed.

Lemma np_diff_map_seq (f : nat -> R) m : forall s,
  np_diff (map f (seq s (S m))) = map (fun i => f (S i) - f i) (seq s m).
Proof.
  induction m as [|m IH]; intros s; [reflexivity|].
  change (map f (seq s (S (S m)))) with (f s :: map f (seq (S s) (S m))).
  change (np_diff (f s :: map f (seq (S s) (S m))))
    with ((f (S s) - f s) :: np_diff (map f (seq (S s) (S m)))).
  rewrite IH. reflexivity.
Qed.

(** The [n] steps of the grid [linspace(0, 1, n + 1)] are all [1/n]. *)
Lemma grid_steps n : (1 <= n)%nat -> np_diff (linspace 0 1 (n + 1)) = repeat (1 / INR n) n.
Proof.
  intros Hn. destruct n as [|n]; [lia|].
  replace (S n + 1)%nat with (S (S n)) by lia. unfold linspace.
  rewrite np_diff_map_seq. apply map_seq_const. intros i.
  replace (S (S n) - 1)%nat with (S n) by lia.
  assert (0 < INR (S n)) by (apply lt_0_INR; lia).
  rewrite S_INR. field. lra.
Qed.

Lemma np_diff_repeat c k : np_diff (repeat c k) = repeat 0 (k - 1).
Proof.
  induction k as [|[|k] IH]; [reflexivity | reflexivity|].
  change (np_diff (repeat c (S (S k)))) with ((c - c) :: np_diff (repeat c (S k))).
  rewrite IH.
  replace (c - c) with 0 by ring. simpl. now rewrite Nat.sub_0_r.
Qed.

Lemma map_const_fun (f : R -> R) c l :
  (forall x, In x l -> f x = c) -> map f l = repeat c (length l).
Proof.
  induction l as [|x r IH]; intros H; simpl; [reflexivity|].
  rewrite (H x (or_introl eq_refl)), IH; auto. intros y Hy. apply H. now right.
Qed.

(** A constant curve resamples to a constant curve, whose steps sum to 0. *)
Lemma flat_cum_sum (xp : list R) c n m :
  xp <> [] -> length xp = m ->
  np_sum (np_diff (map (fun g => np_interp g xp (repeat c m)) (linspace 0 1 (n + 1)))) = 0.
Proof.
  intros Hne <-. rewrite (map_const_fun _ c) by (intros; now apply np_interp_const).
  rewrite np_diff_repeat. pose proof (np_sum_full (length (linspace 0 1 (n + 1)) - 1) 0) as H.
  unfold np_full in H. rewrite H. ring.
Qed.

Lemma np_sum_opp l : np_sum (map Ropp l) = - np_sum l.
Proof. induction l as [|x r IH]; [unfold np_sum; simpl; ring|]. simpl map. rewrite !np_sum_cons, IH. ring. Qed.

Lemma np_diff_opp l : np_diff (map Ropp l) = map Ropp (np_diff l).
Proof.
  induction l as [|x [|y r] IH]; [reflexivity | reflexivity|].
  change (np_diff (map Ropp (x :: y :: r))) with ((- y - - x) :: np_diff (map Ropp (y :: r))).
  rewrite IH. simpl. f_equal. ring.
Qed.

Lemma interp_seg_opp x pts : forall x0 f0,
  interp_seg x x0 (- f0) (map (fun p => (fst p, - snd p)) pts) = - interp_seg x x0 f0 pts.
Proof.
  induction pts as [|[x1 f1] r IH]; intros x0 f0; simpl; [reflexivity|].
  destruct (Rlt_dec x x1); [unfold Rdiv; ring | apply IH].
Qed.

Lemma combine_map_opp (xs fs : list R) :
  combine xs (map Ropp fs) = map (fun p => (fst p, - snd p)) (combine xs fs).
Proof.
  revert fs; induction xs as [|x r IH]; intros [|f fs]; simpl; auto. now rewrite IH.
Qed.

Lemma np_interp_opp x xp fp : np_interp x xp (map Ropp fp) = - np_interp x xp fp.
Proof.
  unfold np_interp. rewrite combine_map_opp.
  destruct (combine xp fp) as [|[x0 f0] rest]; simpl; [ring|].
  destruct (Rlt_dec x x0); [reflexivity | apply interp_seg_opp].
Qed.

Lemma nondecr_validation arr :
  nondecr arr -> forallb (fun d => Rleb 0 d) (np_diff arr) = true.
Proof.
  induction arr as [|x [|y r] IH]; [reflexivity | reflexivity |].
  intros [Hxy Hr].
  change (Rleb 0 (y - x) && forallb (fun d => Rleb 0 d) (np_diff (y :: r)) = true).
  rewrite (IH Hr), andb_true_r.
  unfold Rleb. destruct (Rle_dec 0 (y - x)); [reflexivity | lra].
Qed.

Lemma np_sum_nonneg l : Forall (fun d => 0 <= d) l -> 0 <= np_sum l.
Proof.
  induction l as [|x r IH]; intros H; [unfold np_sum; simpl; lra|].
  inversion H; subst. rewrite np_sum_cons. specialize (IH H3). lra.
Qed.

Lemma full_nonneg n depth : 0 <= depth -> Forall (fun v => 0 <= v) (np_full n (depth / INR (Nat.max n 1))).
Proof.
  intros Hd. apply Forall_forall. intros v Hv. unfold np_full in Hv.
  apply repeat_spec in Hv as ->. unfold Rdiv. apply Rmult_le_pos; [exact Hd|].
  left. apply Rinv_0_lt_compat, lt_0_INR. lia.
Qed.



Lemma np_diff_scale c l : np_diff (map (fun v => c * v) l) = map (fun v => c * v) (np_diff l).
Proof.
  induction l as [|x [|y r] IH]; [reflexivity | reflexivity|].
  change (np_diff (map (fun v => c * v) (x :: y :: r)))
    with ((c * y - c * x) :: np_diff (map (fun v => c * v) (y :: r))).
  rewrite IH. simpl. f_equal. ring.
Qed.

Lemma forallb_scale c l :
  0 < c -> forallb (fun d => Rleb 0 d) (map (fun v => c * v) l) = forallb (fun d => Rleb 0 d) l.
Proof.
  intros Hc. induction l as [|x r IH]; simpl; [reflexivity|]. rewrite IH. f_equal.
  unfold Rleb. destruct (Rle_dec 0 (c * x)), (Rle_dec 0 x); auto; exfalso; nra.
Qed.

(** A table that passes the checks and ends at 0 is replaced by the diagonal,
    and a flat non-zero table is normalised to ones: both give the uniform
    storm. *)
Lemma storm_from_table_uniform_core depth n table :
  (2 <= length table)%nat -> nondecr table ->
  (last table 0 = 0 \/ (forall x, In x table -> x = last table 0)) ->
  storm_from_table depth n table = Ok (np_full n (depth / INR (Nat.max n 1))).
Proof.
  intros Hl Hv Hflat. unfold storm_from_table.
  destruct (Nat.ltb_spec (length table) 2); [lia|].
  rewrite (nondecr_validation _ Hv). cbn [negb]. cbv zeta.
  destruct (Req_dec_T (last table 0) 0) as [HL|HL].
  - rewrite linspace_last by lia.
    replace (map (fun v => v / 1) (linspace 0 1 (length table)))
      with (linspace 0 1 (length table))
      by (rewrite <- (map_id (linspace 0 1 (length table))) at 1;
          apply map_ext; intros; field).
    rewrite linspace_length.
    destruct n as [|n'].
    + cbn. destruct (Rle_dec _ _); [reflexivity | lra].
    + rewrite (map_ext_in _ (fun g => g))
        by (intros g Hg; apply np_interp_linspace_id; [lia | eapply linspace_bounds; eauto]).
      rewrite map_id, grid_steps by lia.
      change (repeat (1 / INR (S n')) (S n')) with (np_full (S n') (1 / INR (S n'))).
      rewrite np_sum_full.
      assert (HS : 0 < INR (S n')) by (apply lt_0_INR; lia).
      assert (E : INR (S n') * (1 / INR (S n')) = 1) by (field; lra).
      rewrite E. destruct (Rle_dec 1 0); [lra|]. f_equal.
      unfold np_full. rewrite map_repeat. f_equal.
      replace (Nat.max (S n') 1) with (S n') by lia. field. lra.
  - destruct Hflat as [H0|Hall]; [contradiction|].
    set (L := last table 0) in *.
    rewrite (map_const_fun (fun v => v / L) 1) by (intros x Hx; rewrite (Hall x Hx); field; exact HL).
    rewrite repeat_length.
    rewrite flat_cum_sum; [| intros E; apply (f_equal (@length R)) in E;
                              rewrite linspace_length in E; simpl in E; lia
                            | apply linspace_length].
    destruct (Rle_dec 0 0); [reflexivity | lra].
Qed.

Lemma storm_from_table_nonneg_all depth n table inc :
  0 <= depth -> storm_from_table depth n table = Ok inc -> Forall (fun v => 0 <= v) inc.
Proof.
  intros Hd H. pose proof H as H'. unfold storm_from_table in H'.
  destruct (Nat.ltb_spec (length table) 2); [discriminate|].
  destruct (forallb _ (np_diff table)) eqn:Hv; simpl in H'; [|discriminate].
  apply validation_nondecr in Hv.
  destruct (Rtotal_order (last table 0) 0) as [Hneg|[Hz|Hpos]].
  - destruct (Req_dec_T (last table 0) 0) as [|_]; [lra|].
    set (L := last table 0) in *.
    assert (Hnorm : map (fun v => v / L) table = map Ropp (map (fun v => v / - L) table))
      by (rewrite map_map; apply map_ext; intros; field; lra).
    rewrite Hnorm in H'.
    set (norm' := map (fun v => v / - L) table) in H'.
    set (xs := linspace 0 1 (length (map Ropp norm'))) in H'.
    assert (Hc : map (fun g => np_interp g xs (map Ropp norm')) (linspace 0 1 (n + 1)) =
                 map Ropp (map (fun g => np_interp g xs norm') (linspace 0 1 (n + 1))))
      by (rewrite map_map; apply map_ext; intros; apply np_interp_opp).
    rewrite Hc, np_diff_opp, np_sum_opp in H'.
    assert (Hn' : nondecr norm').
    { apply nondecr_map; auto. intros x y Hxy. unfold Rdiv.
      apply Rmult_le_compat_r; [left; apply Rinv_0_lt_compat; lra | exact Hxy]. }
    assert (Hcum : nondecr (map (fun g => np_interp g xs norm') (linspace 0 1 (n + 1)))).
    { apply nondecr_map; [|apply incr_nondecr, linspace_incr].
      intros x y Hxy. apply np_interp_mono; auto. apply linspace_incr. }
    apply diff_nonneg, np_sum_nonneg in Hcum.
    destruct (Rle_dec _ 0) as [_|Hs]; [injection H' as <-; now apply full_nonneg | lra].
  - rewrite storm_from_table_uniform_core in H by (auto; lia).
    injection H as <-. now apply full_nonneg.
  - eapply storm_from_table_nonneg; eauto.
Qed.


(** ** Extras *)

(** [build_storm] is linear in the depth: for the depth [c * depth] it raises
    exactly when it raises for [depth], and otherwise returns the same time
    grid and timestamps with the intensity, volume and cumulative columns
    multiplied by [c]. *)
Theorem build_storm_depth_linear fs c depth d ts dist peak path start :
  build_storm fs (c * depth) d ts dist peak path start =
  map_result (scale_frame c) (build_storm fs depth d ts dist peak path start).
Proof.
  unfold build_storm.
  destruct (Rle_dec d 0); [reflexivity|]. destruct (Rle_dec ts 0); [reflexivity|].
  cbv zeta.
  match goal with |- bind ?X _ = map_result _ (bind ?Y _) =>
    assert (HX : X = map_result (map (fun v => c * v)) Y) end.
  { destruct (assoc dist PROPORTION_TABLES) as [table|].
    - apply storm_from_table_depth_scale.
    - destruct (String.eqb dist "user").
      + destruct path as [p|]; [|reflexivity].
        destruct (user_pdf fs (bin_count d ts) p) as [pdf|e]; simpl; [|reflexivity].
        rewrite map_map. f_equal. apply map_ext. intros v. ring.
      + destruct (assoc dist BETA_PRESETS) as [[a b]|]; [|reflexivity].
        simpl. rewrite map_map. f_equal. apply map_ext. intros v. ring. }
  rewrite HX, bind_map_result.
  match goal with |- bind ?Y _ = _ => destruct Y as [inc|e] end; simpl; [|reflexivity].
  unfold scale_frame; simpl. f_equal. f_equal.
  - destruct (bin_count d ts =? 1)%nat; simpl.
    + f_equal. unfold Rdiv. ring.
    + rewrite !map_map. apply map_ext. intros v. unfold Rdiv. ring.
  - apply np_cumsum_scale.
Qed.

(** For a non-negative depth and any distribution other than ["user"] (an
    official table or a Beta preset), every volume and every intensity of the
    returned series is non-negative and the cumulative column never
    decreases. *)
Theorem build_storm_nonneg fs depth d ts dist peak path start df
    (Hdepth : 0 <= depth) (Hu : dist <> "user")
    (H : build_storm fs depth d ts dist peak path start = Ok df) :
  Forall (fun v => 0 <= v) (volume_in df) /\
  Forall (fun v => 0 <= v) (intensity_in_hr df) /\
  nondecr (cumulative_in df).
Proof.
  pose proof (build_volume_nonneg _ _ _ _ _ _ _ _ _ Hdepth Hu H) as Hv.
  destruct (build_storm_ok _ _ _ _ _ _ _ _ _ H) as (Hd & Hts & _ & _ & Hi & Hc & _).
  split; [exact Hv|]. split.
  - rewrite Hi. destruct (bin_count d ts =? 1)%nat.
    + constructor; [|constructor]. unfold Rdiv.
      apply Rmult_le_pos; [exact Hdepth|]. left. apply Rinv_0_lt_compat.
      pose proof (Rmax_r d 1e-12). lra.
    + apply Forall_map. eapply Forall_impl; [|exact Hv]. intros v H0. simpl.
      unfold Rdiv. apply Rmult_le_pos; [exact H0|].
      left. apply Rinv_0_lt_compat. lra.
  - rewrite Hc. now apply cumsum_nondecr.
Qed.

Lemma build_storm_nonneg_witness :
  exists df, build_storm (fun _ => Raise ReadError) 1 1 15 "huff_q2" None None None = Ok df /\
    Forall (fun v => 0 <= v) (volume_in df) /\
    Forall (fun v => 0 <= v) (intensity_in_hr df) /\
    nondecr (cumulative_in df).
Proof.
  destruct (build_beta (fun _ => Raise ReadError) 1 1 15 "huff_q2" None None None 2 3
              ltac:(lra) ltac:(lra) eq_refl eq_refl eq_refl) as [df Hdf].
  exists df. split; [exact Hdf|].
  exact (build_storm_nonneg (fun _ => Raise ReadError) 1 1 15 "huff_q2" None None None df
           ltac:(lra) ltac:(discriminate) Hdf).
Defined.

(** For [n >= 1] the peak-shifted Beta pattern is a probability vector: [n]
    positive values summing to 1. *)
Theorem beta_curve_distribution n a b peak (Hn : (1 <= n)%nat) :
  length (beta_curve n a b peak) = n /\
  Forall (fun v => 0 < v) (beta_curve n a b peak) /\
  np_sum (beta_curve n a b peak) = 1.
Proof.
  destruct (beta_pdf_ok n a b Hn) as [Hl Hs].
  pose proof (beta_pdf_pos n a b) as Hp.
  unfold beta_curve. cbv zeta.
  destruct (n <=? 0)%nat; [auto|].
  destruct (_ =? 0)%Z; [auto|].
  destruct (np_roll_perm (beta_pdf n a b)
              ((peak - Z.of_nat (np_argmax (beta_pdf n a b))) mod Z.of_nat n)) as (H1 & H2 & H3).
  rewrite H1, H2. auto.
Qed.

Lemma beta_curve_distribution_witness :
  (1 <= 8)%nat /\
  length (beta_curve 8 2 4 5) = 8%nat /\
  Forall (fun v => 0 < v) (beta_curve 8 2 4 5) /\
  np_sum (beta_curve 8 2 4 5) = 1.
Proof. split; [lia|]. exact (beta_curve_distribution 8 2 4 5 ltac:(lia)). Defined.

(** [_storm_from_table] on any table: it raises the first [ValueError] exactly
    when the table has fewer than two values and the second exactly when it
    has two or more but decreases somewhere; every other table is resampled,
    into [n] increments, non-negative when the depth is, and summing to the
    depth when [n >= 1]. *)
Theorem storm_from_table_contract depth n table :
  (storm_from_table depth n table =
     Raise (ValueError "Dimensionless table must have at least two values") <->
   (length table < 2)%nat) /\
  (storm_from_table depth n table =
     Raise (ValueError "Dimensionless table must be non-decreasing") <->
   (2 <= length table)%nat /\ ~ nondecr table) /\
  ((2 <= length table)%nat -> nondecr table ->
   exists inc, storm_from_table depth n table = Ok inc) /\
  (forall inc, storm_from_table depth n table = Ok inc ->
     length inc = n /\ (0 <= depth -> Forall (fun v => 0 <= v) inc) /\
     ((1 <= n)%nat -> np_sum inc = depth)).
Proof.
  assert (Hlen : forall inc, storm_from_table depth n table = Ok inc -> length inc = n).
  { intros inc H. unfold storm_from_table in H.
    destruct (length table <? 2)%nat; [discriminate|].
    destruct (negb _); [discriminate|]. cbv zeta in H.
    destruct (Rle_dec _ 0); injection H as <-;
      [unfold np_full; apply repeat_length | rewrite length_map; apply grid_diff_length]. }
  split; [|split; [|split]].
  - unfold storm_from_table. destruct (Nat.ltb_spec (length table) 2) as [Hlt|Hge].
    + split; intros; [exact Hlt | reflexivity].
    + split; intros E; [|lia]. destruct (negb _); [discriminate|].
      cbv zeta in E. destruct (Rle_dec _ 0); discriminate.
  - unfold storm_from_table. destruct (Nat.ltb_spec (length table) 2).
    + split; [discriminate | lia].
    + destruct (forallb _ (np_diff table)) eqn:Hv; simpl.
      * split; [cbv zeta; destruct (Rle_dec _ 0); discriminate|].
        intros [_ Hn]. exfalso. now apply Hn, validation_nondecr.
      * split; [|reflexivity]. intros _. split; [lia|].
        intros Hn. rewrite nondecr_validation in Hv by exact Hn. discriminate.
  - intros Hl Hv. unfold storm_from_table.
    destruct (Nat.ltb_spec (length table) 2); [lia|].
    rewrite (nondecr_validation _ Hv). cbv zeta. simpl.
    destruct (Rle_dec _ 0); eauto.
  - intros inc H. split; [now apply Hlen|]. split.
    + intros Hd. eapply storm_from_table_nonneg_all; eauto.
    + intros Hn. eapply storm_from_table_ok; eauto.
Qed.

(** Multiplying a table by a positive constant does not change the storm:
    [_storm_from_table] depends on the table only through its normalised
    shape. *)
Theorem storm_from_table_scale_invariant depth n table c (Hc : 0 < c) :
  storm_from_table depth n (map (fun v => c * v) table) = storm_from_table depth n table.
Proof.
  unfold storm_from_table. rewrite length_map.
  destruct (length table <? 2)%nat eqn:Hlt; [reflexivity|].
  rewrite np_diff_scale, forallb_scale by exact Hc.
  destruct (negb _); [reflexivity|]. cbv zeta.
  assert (Hne : table <> []) by (intros ->; discriminate).
  rewrite (last_map_nonempty _ _ 0 0 Hne).
  destruct (Req_dec_T (c * last table 0) 0) as [E1|E1];
    destruct (Req_dec_T (last table 0) 0) as [E2|E2].
  - rewrite length_map. reflexivity.
  - exfalso. apply Rmult_integral in E1 as [E1|E1]; lra.
  - exfalso. rewrite E2 in E1. apply E1. ring.
  - replace (map (fun v => v / last (map (fun v0 => c * v0) table) 0) (map (fun v => c * v) table))
      with (map (fun v => v / last table 0) table)
      by (rewrite map_map; apply map_ext; intros;
          rewrite (last_map_nonempty _ _ 0 0 Hne); field; split; lra).
    reflexivity.
Qed.

Lemma storm_from_table_scale_invariant_witness :
  0 < 2 /\ storm_from_table 1 4 (map (fun v => 2 * v) [0; 1]) = storm_from_table 1 4 [0; 1].
Proof. split; [lra|]. exact (storm_from_table_scale_invariant 1 4 [0; 1] 2 ltac:(lra)). Defined.

(** The uniform fallback of [_storm_from_table]: a table that passes the
    checks and either ends at 0 (it is then replaced by [linspace(0, 1, k)]) or
    is flat gives [n] equal increments [depth / max(n, 1)]. *)
Theorem storm_from_table_uniform depth n table
    (Hl : (2 <= length table)%nat) (Hv : nondecr table)
    (Hflat : last table 0 = 0 \/ (forall x, In x table -> x = last table 0)) :
  storm_from_table depth n table = Ok (np_full n (depth / INR (Nat.max n 1))).
Proof. now apply storm_from_table_uniform_core. Qed.

Lemma storm_from_table_uniform_witness :
  (2 <= length [0; 0])%nat /\ nondecr [0; 0] /\ last [0; 0] 0 = 0 /\
  (2 <= length [3; 3])%nat /\ nondecr [3; 3] /\ (forall x, In x [3; 3] -> x = last [3; 3] 0) /\
  storm_from_table 2 4 [0; 0] = Ok (np_full 4 (2 / INR (Nat.max 4 1))) /\
  storm_from_table 2 4 [3; 3] = Ok (np_full 4 (2 / INR (Nat.max 4 1))).
Proof.
  assert (H3 : forall x, In x [3; 3] -> x = last [3; 3] 0).
  { intros x [<-|[<-|[]]]; reflexivity. }
  repeat split; try (simpl; lia); try (simpl; lra); try exact H3.
  - exact (storm_from_table_uniform 2 4 [0; 0] ltac:(simpl; lia) ltac:(simpl; lra)
             (or_introl eq_refl)).
  - exact (storm_from_table_uniform 2 4 [3; 3] ltac:(simpl; lia) ltac:(simpl; lra)
             (or_intror H3)).
Defined.



End StormExtra.

Module NoaaExtra.
Import Noaa NoaaFacts Lqa.
Open Scope Q_scope.

(** ** Text helpers *)

Lemma lit_app s1 s2 : lit (s1 ++ s2) = (lit s1 ++ lit s2)%list.
Proof. induction s1 as [|c s1 IH]; simpl; [reflexivity|]. unfold lit in *. now rewrite IH. Qed.

Lemma drop_while_suffix p s : exists pre, s = (pre ++ drop_while p s)%list.
Proof.
  induction s as [|c s (pre & IH)]; simpl; [now exists []|].
  destruct (p c); [exists (c :: pre); simpl; now f_equal | now exists []].
Qed.

Lemma drop_while_head p s c r : drop_while p s = c :: r -> p c = false.
Proof.
  induction s as [|x s IH]; simpl; [discriminate|].
  destruct (p x) eqn:E; [exact IH|]. now intros [= -> _].
Qed.

Lemma drop_while_idem p s : drop_while p (drop_while p s) = drop_while p s.
Proof.
  destruct (drop_while p s) as [|c r] eqn:E; [reflexivity|].
  simpl. now rewrite (drop_while_head p s c r E).
Qed.

Lemma drop_while_in p s c : In c (drop_while p s) -> In c s.
Proof.
  destruct (drop_while_suffix p s) as (pre & E). intros H. rewrite E.
  apply in_or_app. now right.
Qed.

Lemma strip_in s c : In c (strip s) -> In c s.
Proof. unfold strip. intros H. apply in_rev, drop_while_in, in_rev, drop_while_in in H. exact H. Qed.

Lemma strip_idem s : strip (strip s) = strip s.
Proof.
  unfold strip at 2 3.
  set (t := drop_while is_space s).
  set (u := drop_while is_space (rev t)).
  unfold strip.
  assert (Hd : drop_while is_space (rev u) = rev u).
  { destruct (rev u) as [|z w] eqn:Eu; [reflexivity|]. simpl.
    replace (is_space z) with false; [reflexivity|].
    destruct (drop_while_suffix is_space (rev t)) as (pre & Ep).
    fold u in Ep.
    assert (Hu : u = (rev w ++ [z])%list).
    { rewrite <- (rev_involutive u), Eu. reflexivity. }
    rewrite Hu, app_assoc in Ep.
    assert (Ht : t = z :: rev (pre ++ rev w)).
    { rewrite <- (rev_involutive t), Ep, rev_app_distr. reflexivity. }
    symmetry. exact (drop_while_head is_space s z _ Ht). }
  rewrite Hd, rev_involutive. unfold u at 1. rewrite drop_while_idem. reflexivity.
Qed.

Lemma rstrip_colon_id s : (forall c, In c s -> c <> ":"%char) -> rstrip_colon s = s.
Proof.
  intros H. unfold rstrip_colon.
  destruct (rev s) as [|c r] eqn:E; cbn [drop_while].
  - rewrite <- (rev_involutive s), E. reflexivity.
  - replace (chr_eqb ":" c) with false.
    + rewrite <- E, rev_involutive. reflexivity.
    + symmetry. apply Ascii.eqb_neq. intros <-. apply (H ":"%char); [|reflexivity].
      apply in_rev. rewrite E. now left.
Qed.

Lemma split_colon_label s a b : split_colon s = Some (a, b) -> forall c, In c a -> c <> ":"%char.
Proof.
  revert a b. induction s as [|x s IH]; simpl; [discriminate|]. intros a b.
  destruct (chr_eqb x ":") eqn:Ex; [intros [= <- _] c []|].
  destruct (split_colon s) as [[a' b']|] eqn:Es; [|discriminate].
  intros [= <- _] c [<-|Hc].
  - intros ->. discriminate.
  - exact (IH a' b' eq_refl c Hc).
Qed.

Lemma line_match_label ln raw rest : line_match ln = Some (raw, rest) -> forall c, In c raw -> c <> ":"%char.
Proof.
  unfold line_match. destruct (split_colon ln) as [[[|x a] b]|] eqn:E; try discriminate.
  intros [= <- _]. exact (split_colon_label _ _ _ E).
Qed.


(** ** Rounding *)

Lemma qfloor_unique q z : inject_Z z <= q -> q < inject_Z z + 1 -> Qfloor q = z.
Proof.
  intros H1 H2.
  pose proof (Qfloor_le q) as F1. pose proof (Qlt_floor q) as F2.
  rewrite inject_Z_plus in F2. change (inject_Z 1) with 1 in F2.
  assert (A : (z < Qfloor q + 1)%Z).
  { rewrite Zlt_Qlt, inject_Z_plus. change (inject_Z 1) with 1. lra. }
  assert (B : (Qfloor q < z + 1)%Z).
  { rewrite Zlt_Qlt, inject_Z_plus. change (inject_Z 1) with 1. lra. }
  lia.
Qed.

Lemma round_half_even_int k : round_half_even (inject_Z k) = k.
Proof.
  unfold round_half_even. rewrite Qfloor_Z.
  replace (Qle_bool (1 # 2) (inject_Z k - inject_Z k)) with false; [reflexivity|].
  symmetry. apply not_true_iff_false. rewrite Qle_bool_iff. lra.
Qed.

Lemma round_half_even_tie k :
  round_half_even (inject_Z k + (1 # 2)) = if Z.even k then k else (k + 1)%Z.
Proof.
  unfold round_half_even.
  rewrite (qfloor_unique _ k) by lra.
  replace (Qle_bool (1 # 2) (inject_Z k + (1 # 2) - inject_Z k)) with true
    by (symmetry; apply Qle_bool_iff; lra).
  replace (Qle_bool (inject_Z k + (1 # 2) - inject_Z k) (1 # 2)) with true
    by (symmetry; apply Qle_bool_iff; lra).
  reflexivity.
Qed.

Lemma round_half_even_close q k : Qabs (q - inject_Z k) < 1 # 2 -> round_half_even q = k.
Proof.
  intros H. apply Qabs_Qlt_condition in H as [H1 H2].
  unfold round_half_even.
  destruct (Qlt_le_dec q (inject_Z k)) as [Hlt|Hge].
  - assert (E : inject_Z (k - 1) == inject_Z k - 1).
    { unfold Z.sub. rewrite inject_Z_plus. reflexivity. }
    assert (Hf : Qfloor q = (k - 1)%Z).
    { apply qfloor_unique; rewrite E; lra. }
    rewrite Hf.
    replace (Qle_bool (1 # 2) (q - inject_Z (k - 1))) with true
      by (symmetry; apply Qle_bool_iff; rewrite E; lra).
    replace (Qle_bool (q - inject_Z (k - 1)) (1 # 2)) with false.
    + simpl. lia.
    + symmetry. apply not_true_iff_false. rewrite Qle_bool_iff, E. lra.
  - rewrite (qfloor_unique q k) by lra.
    replace (Qle_bool (1 # 2) (q - inject_Z k)) with false; [reflexivity|].
    symmetry. apply not_true_iff_false. rewrite Qle_bool_iff. lra.
Qed.

(** ** Duration labels *)

Lemma digit_not_space c : is_digit c = true -> is_space c = false.
Proof. destruct c as [[] [] [] [] [] [] [] []]; vm_compute; congruence. Qed.

Lemma span_digits d ds' X :
  forallb is_digit (d :: ds') = true ->
  (forall c r, X = c :: r -> is_digit c = false) ->
  span is_digit (d :: ds' ++ X) = (d :: ds', X).
Proof.
  revert d. induction ds' as [|x ds' IH]; intros d Hall HX.
  - simpl in Hall. rewrite andb_true_r in Hall. simpl. rewrite Hall.
    destruct X as [|c r]; [reflexivity|]. simpl. now rewrite (HX c r eq_refl).
  - simpl in Hall. apply andb_prop in Hall as [Hd Hall].
    change (span is_digit (d :: (x :: ds') ++ X)) with
      (if is_digit d then let (a, b) := span is_digit ((x :: ds') ++ X) in (d :: a, b)
       else ([], d :: (x :: ds') ++ X)).
    rewrite Hd. simpl app. rewrite (IH x Hall HX). reflexivity.
Qed.

Lemma scaled_int m : scaled m 0 0 = inject_Z m.
Proof. unfold scaled. simpl. now rewrite Z.mul_1_r. Qed.

Lemma lit_nonempty s : s <> EmptyString -> lit s <> [].
Proof. destruct s; [contradiction|]. discriminate. Qed.

(** ** Tables *)

Lemma parse_noaa_text_rows txt df :
  parse_noaa_text txt = Some df ->
  exists k lines, index df = map fst (parse_rows k lines) /\ columns df <> [] /\ index df <> [].
Proof.
  unfold parse_noaa_text.
  destruct (find (contains ARI) (noaa_lines txt)) as [header|]; [|discriminate].
  destruct (map col_label _) as [|c cs]; [discriminate|].
  destruct (parse_rows _ _) as [|r rs] eqn:E; [discriminate|].
  intros [= <-]. simpl. eexists _, _. rewrite E. split; [reflexivity|]. split; discriminate.
Qed.

Lemma parse_noaa_text_not_empty txt df : parse_noaa_text txt = Some df -> df_empty df = false.
Proof.
  intros H. destruct (parse_noaa_text_rows txt df H) as (k & lines & _ & Hc & Hi).
  unfold df_empty. destruct (index df); [contradiction|]. destruct (columns df); [contradiction|].
  reflexivity.
Qed.

Lemma parsed_labels_convert k lines :
  Forall (fun lab => label_to_minutes lab <> None) (map fst (parse_rows k lines)).
Proof.
  pose proof (parse_rows_spec k lines) as H.
  apply Forall_map. eapply Forall_impl; [|exact H].
  intros [lab row] (ln & raw & rest & _ & Hm & Hd & -> & _). simpl.
  pose proof (line_match_label ln raw rest Hm) as Hnc.
  assert (Hr : rstrip_colon (strip raw) = strip raw).
  { apply rstrip_colon_id. intros c Hc. apply Hnc, strip_in, Hc. }
  unfold label_to_minutes, lit. rewrite list_ascii_of_string_of_list_ascii, Hr, strip_idem, Hr.
  destruct (dur_match (strip raw)) as [[num u]|]; [|contradiction].
  destruct (starts_with _ _); [discriminate|]. destruct (_ || _); discriminate.
Qed.

Lemma strip_keep x : drop_while is_space x = x -> drop_while is_space (rev x) = rev x -> strip x = x.
Proof. unfold strip. intros H1 H2. now rewrite H1, H2, rev_involutive. Qed.

Lemma rstrip_colon_keep x : drop_while (chr_eqb ":"%char) (rev x) = rev x -> rstrip_colon x = x.
Proof. unfold rstrip_colon. intros H. now rewrite H, rev_involutive. Qed.

(** [_label_to_minutes] on a label [<digits><sep><unit>], the separator a
    dash or a space and the unit one of the eight names of the duration
    pattern: the number of minutes is the integer times 1 for the minute
    units, 60 for the hour units and 1440 for the day units. *)
Theorem label_to_minutes_units (ds sep u : string)
    (Hds : ds <> EmptyString) (Hdig : forallb is_digit (lit ds) = true)
    (Hsep : sep = "-" \/ sep = " ") :
  let m := inject_Z (digits_value (lit ds)) in
  (In u ["min"; "minute"; "minutes"] -> label_to_minutes (ds ++ sep ++ u) = Some m) /\
  (In u ["hr"; "hour"; "hours"] -> label_to_minutes (ds ++ sep ++ u) = Some (m * 60)) /\
  (In u ["day"; "days"] -> label_to_minutes (ds ++ sep ++ u) = Some (m * 1440)).
Proof.
  cbv zeta.
  pose proof (lit_nonempty ds Hds) as Hne.
  assert (Hl : forall X, lit (ds ++ X) = (lit ds ++ lit X)%list) by (intros; apply lit_app).
  destruct (lit ds) as [|d ds'] eqn:ED; [contradiction|].
  assert (Hsd : is_space d = false).
  { apply digit_not_space. simpl in Hdig. now apply andb_prop in Hdig as [-> _]. }
  destruct Hsep as [-> | ->]; repeat split; intros Hu;
    repeat (destruct Hu as [<- | Hu]; [|]); try contradiction;
    unfold label_to_minutes; rewrite Hl, lit_app;
    match goal with |- context [((d :: ds') ++ ?Y)%list] => set (X := Y) end;
    (assert (H1 : drop_while is_space ((d :: ds') ++ X) = (d :: ds') ++ X)
       by (cbn [app drop_while]; now rewrite Hsd));
    rewrite strip_keep, rstrip_colon_keep; try (rewrite rev_app_distr; reflexivity); try exact H1;
    unfold dur_match; rewrite H1; change ((d :: ds') ++ X) with (d :: ds' ++ X)%list;
    (rewrite span_digits by (exact Hdig || (intros c r [= <- _]; reflexivity)));
    simpl; now rewrite app_nil_r, scaled_int.
Qed.

Lemma label_to_minutes_units_witness :
  label_to_minutes ("6" ++ "-" ++ "hr") = Some (inject_Z (digits_value (lit "6")) * 60) /\
  label_to_minutes ("15" ++ " " ++ "minutes") = Some (inject_Z (digits_value (lit "15"))) /\
  label_to_minutes ("2" ++ "-" ++ "days") = Some (inject_Z (digits_value (lit "2")) * 1440).
Proof.
  split; [|split].
  - apply (label_to_minutes_units "6" "-" "hr" ltac:(discriminate) eq_refl (or_introl eq_refl)).
    simpl; auto.
  - apply (label_to_minutes_units "15" " " "minutes" ltac:(discriminate) eq_refl (or_intror eq_refl)).
    simpl; auto.
  - apply (label_to_minutes_units "2" "-" "days" ltac:(discriminate) eq_refl (or_introl eq_refl)).
    simpl; auto.
Defined.

(** Every row label of a parsed table converts to a finite number of
    minutes, so [_nearest_row_index] on a parsed table always picks a row
    at a finite distance from the target duration. *)
Theorem parsed_labels_finite txt df t :
  parse_noaa_text txt = Some df ->
  Forall (fun lab => label_to_minutes lab <> None) (index df) /\
  row_distance t (nth (nearest_row_index df t) (index df) EmptyString) <> None.
Proof.
  intros H.
  destruct (parse_noaa_text_rows txt df H) as (k & lines & Hi & _ & Hne).
  assert (HF : Forall (fun lab => label_to_minutes lab <> None) (index df))
    by (rewrite Hi; apply parsed_labels_convert).
  split; [exact HF|].
  destruct (nearest_row_index_spec df t Hne) as (Hlt & _).
  rewrite Forall_nth in HF. specialize (HF _ EmptyString Hlt).
  unfold row_distance. destruct (label_to_minutes _); [discriminate|contradiction].
Qed.

Lemma parsed_labels_finite_witness :
  let df := {| columns := ["2"; "5"; "10"; "25"]; index := ["6-hr"];
               data := [[Some 1.2; Some 1.8; Some 2.3; Some 3.0]] |} in
  Forall (fun lab => label_to_minutes lab <> None) (index df) /\
  row_distance 90 (nth (nearest_row_index df 90) (index df) EmptyString) <> None.
Proof.
  intros df. apply (parsed_labels_finite ddf_example df 90). vm_compute. reflexivity.
Defined.

Lemma fetch_noaa_table_raise pfdf urlopen lat lon e :
  fetch_noaa_table pfdf urlopen lat lon = Raise e <->
  exists dl, pfdf = Some dl /\ dl lat lon = OtherFailure e.
Proof.
  unfold fetch_noaa_table. split.
  - destruct pfdf as [dl|]; [|discriminate].
    destruct (dl lat lon) as [txt| |e'] eqn:E.
    + destruct (parse_noaa_text txt) as [df|]; [destruct (df_empty df)|]; discriminate.
    + discriminate.
    + intros [= ->]. now exists dl.
  - intros (dl & -> & E). now rewrite E.
Qed.

(** [fetch_noaa_table]: it raises exactly when the [pfdf] download fails
    with an exception other than a request error; a request error gives no
    table and the NOAA CSV service is not tried; without [pfdf] the result is
    the CSV service's; a downloaded text that parses is used as it is, and
    one that does not parse falls back to the CSV service.  A table it
    gives is never empty. *)
Theorem fetch_noaa_table_outcomes pfdf urlopen lat lon :
  let r := fetch_noaa_table pfdf urlopen lat lon in
  (forall e, r = Raise e <-> exists dl, pfdf = Some dl /\ dl lat lon = OtherFailure e) /\
  (forall dl, pfdf = Some dl -> dl lat lon = RequestFailed -> r = Ok None) /\
  (pfdf = None -> r = Ok (fetch_noaa_csv urlopen lat lon)) /\
  (forall dl txt, pfdf = Some dl -> dl lat lon = Downloaded txt ->
     r = Ok (match parse_noaa_text txt with
             | Some df => Some df
             | None => fetch_noaa_csv urlopen lat lon
             end)) /\
  (forall df, r = Ok (Some df) -> df_empty df = false).
Proof.
  intros r.
  assert (Hcsv : forall df, fetch_noaa_csv urlopen lat lon = Some df -> df_empty df = false).
  { intros df. unfold fetch_noaa_csv. destruct urlopen as [get|]; [|discriminate].
    destruct (get lat lon) as [txt|]; [|discriminate]. apply parse_noaa_text_not_empty. }
  split; [|split; [|split; [|split]]].
  - apply fetch_noaa_table_raise.
  - intros dl -> E. unfold r, fetch_noaa_table. now rewrite E.
  - intros ->. reflexivity.
  - intros dl txt -> E. unfold r, fetch_noaa_table. rewrite E.
    destruct (parse_noaa_text txt) as [df|] eqn:P; [|reflexivity].
    now rewrite (parse_noaa_text_not_empty txt df P).
  - intros df. unfold r, fetch_noaa_table.
    destruct pfdf as [dl|]; [|intros [= H]; exact (Hcsv df H)].
    destruct (dl lat lon) as [txt| |e']; try discriminate.
    destruct (parse_noaa_text txt) as [df'|] eqn:P.
    + destruct (df_empty df') eqn:Em; [intros [= H]; exact (Hcsv df H)|].
      intros [= <-]. exact Em.
    + intros [= H]. exact (Hcsv df H).
Qed.

(** The ARI is rounded as Python's [round] does: an ARI within less than
    1/2 of an integer reads the column of that integer, and an ARI halfway
    between two integers reads the column of the even one. *)
Theorem fetch_noaa_depth_ari_rounding fetch_table lat lon duration_hr (k : Z) :
  fetch_noaa_depth fetch_table lat lon duration_hr (inject_Z k + (1 # 2)) =
    fetch_noaa_depth fetch_table lat lon duration_hr
      (inject_Z (if Z.even k then k else (k + 1)%Z)) /\
  (forall ari, Qabs (ari - inject_Z k) < 1 # 2 ->
     fetch_noaa_depth fetch_table lat lon duration_hr ari =
     fetch_noaa_depth fetch_table lat lon duration_hr (inject_Z k)).
Proof.
  split.
  - unfold fetch_noaa_depth. now rewrite round_half_even_tie, round_half_even_int.
  - intros ari H. unfold fetch_noaa_depth.
    now rewrite (round_half_even_close ari k H), round_half_even_int.
Qed.





(** On a finite ARI the float version is [fetch_noaa_depth]. *)
Lemma fetch_noaa_depth_float_fin fetch_table lat lon duration_hr q :
  fetch_noaa_depth_float fetch_table lat lon duration_hr (Fin q) =
  fetch_noaa_depth fetch_table lat lon duration_hr q.
Proof.
  unfold fetch_noaa_depth_float, fetch_noaa_depth.
  destruct (fetch_table lat lon) as [df|]; [|reflexivity].
  destruct (df_empty df); reflexivity.
Qed.


End NoaaExtra.

Module CliExtra.
Import Storm Noaa Cli StormFacts.
Open Scope R_scope.

Section Run.

Variable pfdf : option (Q -> Q -> download).
Variable urlopen : option (Q -> Q -> option string).
Variable fs : filesystem.
Variable py_float : string -> option Q.
Variable fromisoformat : string -> result R.
Variable plt_available : bool.

Local Abbreviation run := (main pfdf urlopen fs py_float fromisoformat plt_available).
Local Abbreviation resolve := (resolve_noaa pfdf urlopen py_float).
Local Abbreviation loc_pair := (location_pair py_float).

Lemma outputs_outcome a df st :
  snd (outputs plt_available a df st) = Exit 0 \/
  snd (outputs plt_available a df st) = RuntimeError "matplotlib not available".
Proof.
  unfold outputs. cbv zeta.
  destruct (plot_step _ _ _ _) as [eh []]; [destruct (plot_step _ _ _ _) as [ec []]|]; simpl; auto.
Qed.

Lemma noaa_wanted_location a : noaa_wanted a = true -> exists l, location a = Some l.
Proof.
  unfold noaa_wanted. destruct (location a) as [l|]; [eauto|]. now rewrite andb_false_r.
Qed.

Lemma resolve_cases a r :
  resolve a = Ok r ->
  (noaa_wanted a = false /\ r = Some a) \/
  (noaa_wanted a = true /\ exists l, location a = Some l /\
     ((loc_pair l = None /\ r = None) \/
      exists lat lon v, loc_pair l = Some (lat, lon) /\
        noaa_depth pfdf urlopen lat lon (duration a) (return_period a) = Ok v /\
        r = match v, depth a with
            | None, None => None
            | Some x, _ => Some (set_depth a (Some x))
            | None, Some _ => Some a
            end)).
Proof.
  unfold resolve_noaa. intros H.
  destruct (noaa_wanted a) eqn:W; [|injection H as <-; now left].
  right. split; [reflexivity|].
  destruct (noaa_wanted_location a W) as [l El]. exists l. split; [exact El|]. rewrite El in H.
  destruct (loc_pair l) as [[lat lon]|].
  - destruct (noaa_depth _ _ _ _ _ _) as [v|e] eqn:N; simpl in H; [|discriminate].
    right. exists lat, lon, v. split; [reflexivity|]. split; [exact N|].
    destruct v, (depth a); congruence.
  - injection H as <-. now left.
Qed.

Lemma main_after_resolve a a1 :
  resolve a = Ok (Some a1) ->
  run a =
  match depth a1 with
  | None => ([], Exit 1)
  | Some d =>
      match (match truthy (start_datetime a1) with
             | Some s => t <- fromisoformat s ;; Ok (Some t)
             | None => Ok None
             end) with
      | Raise e => ([], Raised e)
      | Ok start_dt =>
          match build_storm fs (Q2R d) (Q2R (duration a1)) (Q2R (time_step a1))
                  (distribution a1) None (truthy (custom_curve a1)) start_dt with
          | Raise e => ([], Raised e)
          | Ok df => outputs plt_available a1 df start_dt
          end
      end
  end.
Proof. intros H. unfold main. now rewrite H. Qed.

Lemma main_exit_one_nothing a : snd (run a) = Exit 1 -> fst (run a) = [].
Proof.
  destruct (resolve a) as [[a1|]|e] eqn:R.
  - rewrite (main_after_resolve a a1 R).
    destruct (depth a1); [|reflexivity].
    destruct (match truthy (start_datetime a1) with Some s => _ | None => _ end) as [st|e]; [|reflexivity].
    destruct (build_storm _ _ _ _ _ _ _ _) as [df|e]; [|reflexivity].
    intros H. exfalso. destruct (outputs_outcome a1 df st) as [E|E]; rewrite E in H; discriminate.
  - unfold main. now rewrite R.
  - unfold main. now rewrite R.
Qed.

(** [main] returns 1 exactly when the depth cannot be resolved: with
    [--use-noaa] and a location, when the location is not two floats
    separated by a comma, or when NOAA gives no depth and [--depth] is not
    set; otherwise when [--depth] is not set.  It writes nothing then. *)
Theorem main_exit_one a :
  (run a = ([], Exit 1) <->
    (noaa_wanted a = true /\ exists l, location a = Some l /\
       (loc_pair l = None \/
        exists lat lon, loc_pair l = Some (lat, lon) /\
          noaa_depth pfdf urlopen lat lon (duration a) (return_period a) = Ok None /\
          depth a = None)) \/
    (noaa_wanted a = false /\ depth a = None)) /\
  (snd (run a) = Exit 1 -> fst (run a) = []).
Proof.
  split; [|apply main_exit_one_nothing].
  split.
  - intros H.
    destruct (resolve a) as [r|e] eqn:R.
    + destruct (resolve_cases a r R) as [(W & ->)|(W & l & El & [(Lp & ->)|(lat & lon & v & Lp & N & Er)])].
      * right. split; [exact W|].
        rewrite (main_after_resolve a a R) in H.
        destruct (depth a); [|reflexivity]. exfalso.
        pose proof (main_exit_one_nothing a) as Hn.
        destruct (match truthy (start_datetime a) with Some s => _ | None => _ end) as [st|e]; [|discriminate].
        destruct (build_storm _ _ _ _ _ _ _ _) as [df|e]; [|discriminate].
        destruct (outputs_outcome a df st) as [E|E]; rewrite H in E; discriminate.
      * left. split; [exact W|]. exists l. auto.
      * destruct v as [x|]; [|destruct (depth a) eqn:Ed].
        -- exfalso. rewrite Er in R. rewrite (main_after_resolve a _ R) in H. simpl in H.
           destruct (match truthy (start_datetime a) with Some s => _ | None => _ end) as [st|e]; [|discriminate].
           destruct (build_storm _ _ _ _ _ _ _ _) as [df|e]; [|discriminate].
           destruct (outputs_outcome (set_depth a (Some x)) df st) as [E|E]; rewrite H in E; discriminate.
        -- exfalso. rewrite Er in R. rewrite (main_after_resolve a _ R) in H. rewrite Ed in H.
           destruct (match truthy (start_datetime a) with Some s => _ | None => _ end) as [st|e]; [|discriminate].
           destruct (build_storm _ _ _ _ _ _ _ _) as [df|e]; [|discriminate].
           destruct (outputs_outcome a df st) as [E|E]; rewrite H in E; discriminate.
        -- left. split; [exact W|]. exists l. split; [exact El|]. right. eauto.
    + unfold main in H. rewrite R in H. discriminate.
  - intros [(W & l & El & [Lp|(lat & lon & Lp & N & Hd)])|(W & Hd)]; unfold main, resolve_noaa.
    + now rewrite W, El, Lp.
    + rewrite W, El, Lp, N. simpl. now rewrite Hd.
    + rewrite W. simpl. now rewrite Hd.
Qed.

Lemma start_ok (o : option string) st :
  (match o with Some s => t <- fromisoformat s ;; Ok (Some t) | None => Ok None end) = Ok st ->
  match o with None => st = None | Some s => exists t, fromisoformat s = Ok t /\ st = Some t end.
Proof.
  destruct o as [s|]; [|now intros [= <-]].
  destruct (fromisoformat s) as [t|e]; simpl; [|discriminate]. intros [= <-]. eauto.
Qed.

Lemma outputs_effects a d df st :
  depth a = Some d ->
  Forall (effect_from a d df st) (fst (outputs plt_available a df st)).
Proof.
  intros Hd.
  assert (Hs : save_preset (set_depth a (Some d)) = save_preset a).
  { unfold save_preset. now rewrite Hd. }
  assert (Hp : forall out mk, (forall p, effect_from a d df st (mk p)) ->
            Forall (effect_from a d df st) (fst (plot_step plt_available a out mk))).
  { intros out mk Hmk. unfold plot_step. destruct (truthy out) as [p|]; [|constructor].
    destruct plt_available; [|constructor]. constructor; [apply Hmk|].
    destruct (String.eqb (pptx a) ""); [constructor|]. constructor; [reflexivity|constructor]. }
  unfold outputs. cbv zeta.
  assert (Hcsv : Forall (effect_from a d df st)
    (match truthy (out_csv a) with Some p => [WriteCsv p df] | None => [] end))
    by (destruct (truthy (out_csv a)); repeat constructor).
  assert (Hdat : Forall (effect_from a d df st)
    (match truthy (out_dat a) with
     | Some p => [WriteDat p (write_pcswmm_dat df (Q2R (time_step a)) (gauge_name a) IntensityCol st)]
     | None => [] end))
    by (destruct (truthy (out_dat a)); repeat constructor).
  assert (Hsp : Forall (effect_from a d df st)
    (match truthy (save_preset_arg a) with Some p => [SavePreset p (save_preset a)] | None => [] end)).
  { destruct (truthy (save_preset_arg a)); repeat constructor. simpl. now rewrite Hs. }
  pose proof (Hp (out_hyetograph a) (fun p => PlotHyetograph p df) (fun _ => eq_refl)) as Hh.
  pose proof (Hp (out_cumulative a) (fun p => PlotCumulative p df) (fun _ => eq_refl)) as Hc.
  destruct (plot_step plt_available a (out_hyetograph a) _) as [eh []];
    [destruct (plot_step plt_available a (out_cumulative a) _) as [ec []]|]; simpl in *;
    repeat (apply Forall_app; split); auto.
Qed.

(** Every file and plot of a run comes from one storm: [build_storm] at the
    resolved depth (NOAA's depth when NOAA gives one, [--depth] otherwise),
    the duration, time step, distribution and custom curve of the options,
    and the parsed start.  The DAT file holds the intensity column whatever
    [--export-type] says, and a saved preset holds the resolved depth. *)
Theorem main_effects_one_storm a :
  fst (run a) <> [] ->
  exists d start df,
    (noaa_wanted a = true ->
       exists l lat lon v, location a = Some l /\ loc_pair l = Some (lat, lon) /\
         noaa_depth pfdf urlopen lat lon (duration a) (return_period a) = Ok v /\
         Some d = fill v (depth a)) /\
    (noaa_wanted a = false -> depth a = Some d) /\
    match truthy (start_datetime a) with
    | None => start = None
    | Some s => exists t, fromisoformat s = Ok t /\ start = Some t
    end /\
    build_storm fs (Q2R d) (Q2R (duration a)) (Q2R (time_step a)) (distribution a) None
      (truthy (custom_curve a)) start = Ok df /\
    Forall (effect_from a d df start) (fst (run a)).
Proof.
  intros Hne.
  destruct (resolve a) as [[a1|]|e] eqn:R;
    [|unfold main in Hne; rewrite R in Hne; contradiction
     |unfold main in Hne; rewrite R in Hne; contradiction].
  rewrite (main_after_resolve a a1 R) in *.
  destruct (depth a1) as [d|] eqn:Ed; [|contradiction].
  destruct (match truthy (start_datetime a1) with Some s => _ | None => _ end) as [st|e] eqn:Est;
    [|contradiction].
  destruct (build_storm _ _ _ _ _ _ _ _) as [df|e] eqn:Eb; [|contradiction].
  exists d, st, df.
  pose proof (start_ok _ _ Est) as Hst.
  pose proof (outputs_effects a1 d df st Ed) as Hf.
  destruct (resolve_cases a _ R)
    as [(W & [= <-])|(W & l & El & [(Lp & [=])|(lat & lon & v & Lp & N & Er)])].
  - split; [congruence|]. split; [intros _; exact Ed|]. split; [exact Hst|].
    split; [exact Eb|exact Hf].
  - destruct v as [x|]; [|destruct (depth a) as [y|] eqn:Ed'; [|discriminate]].
    + injection Er as ->. injection Ed as <-.
      split; [intros _; exists l, lat, lon, (Some x); auto|].
      split; [congruence|]. split; [exact Hst|]. split; [exact Eb|exact Hf].
    + injection Er as ->. rewrite Ed in Ed'. injection Ed' as ->.
      split; [intros _; exists l, lat, lon, None; auto|].
      split; [reflexivity|]. split; [exact Hst|]. split; [exact Eb|exact Hf].
Qed.

Lemma resolve_unused a lp v q pk et :
  resolve (with_unused a lp v q pk et) =
  match resolve a with
  | Ok (Some a1) => Ok (Some (with_unused a1 lp v q pk et))
  | r => r
  end.
Proof.
  unfold resolve_noaa. cbn [with_unused location duration return_period depth].
  change (noaa_wanted (with_unused a lp v q pk et)) with (noaa_wanted a).
  destruct (noaa_wanted a); [|reflexivity].
  destruct (location_pair py_float _) as [[lat lon]|]; [|reflexivity].
  destruct (noaa_depth _ _ _ _ _ _) as [[x|]|e]; simpl; [reflexivity| |reflexivity].
  destruct (depth a); reflexivity.
Qed.

Lemma outputs_unused a1 lp v q pk et df st :
  (truthy (save_preset_arg a1) = None \/ (pk = peak a1 /\ et = export_type a1)) ->
  outputs plt_available (with_unused a1 lp v q pk et) df st = outputs plt_available a1 df st.
Proof.
  intros [Hs|[-> ->]]; [|reflexivity].
  unfold outputs. cbv zeta.
  replace (truthy (save_preset_arg (with_unused a1 lp v q pk et))) with (truthy (save_preset_arg a1))
    by reflexivity.
  rewrite Hs. reflexivity.
Qed.

Lemma main_unused a lp v q pk et :
  (truthy (save_preset_arg a) = None \/ (pk = peak a /\ et = export_type a)) ->
  run (with_unused a lp v q pk et) = run a.
Proof.
  intros Hs. unfold main. rewrite resolve_unused.
  destruct (resolve a) as [[a1|]|e] eqn:R; [|reflexivity|reflexivity].
  assert (Hs1 : truthy (save_preset_arg a1) = None \/ (pk = peak a1 /\ et = export_type a1)).
  { destruct (resolve_cases a _ R)
      as [(W & [= <-])|(W & l & El & [(Lp & [=])|(lat & lon & x & Lp & N & Er)])]; [exact Hs|].
    destruct x, (depth a); try discriminate; injection Er as ->; exact Hs. }
  cbn [depth start_datetime duration time_step distribution custom_curve with_unused].
  destruct (depth a1); [|reflexivity].
  destruct (match truthy (start_datetime a1) with Some s => _ | None => _ end); [|reflexivity].
  destruct (build_storm _ _ _ _ _ _ _ _); [|reflexivity].
  now apply outputs_unused.
Qed.

(** [main] never reads [--load-preset], [-v] or [-q] (logging apart):
    changing them changes nothing in the run.  [--peak] and
    [--export-type] reach only the saved preset: without [--save-preset]
    they change nothing either. *)
Theorem main_unused_options a lp v q pk et :
  run (with_unused a lp v q (peak a) (export_type a)) = run a /\
  (truthy (save_preset_arg a) = None -> run (with_unused a lp v q pk et) = run a).
Proof.
  split.
  - apply main_unused. now right.
  - intros Hs. apply main_unused. now left.
Qed.

End Run.





(** ** Presets and the location *)

Lemma fill_same {A} (x : option A) : fill x x = x.
Proof. now destruct x. Qed.

Lemma fill_idem {A} (x v : option A) : fill (fill x v) v = fill x v.
Proof. now destruct x, v. Qed.

(** A preset loaded back into the namespace it was saved from changes
    nothing, and loading the same preset twice is loading it once. *)
Theorem preset_round_trip a b c :
  load_preset (save_preset a) a = a /\
  load_preset c (load_preset c b) = load_preset c b.
Proof.
  split.
  - destruct a. unfold load_preset, save_preset. simpl. now rewrite !fill_same.
  - unfold load_preset. simpl. now rewrite !fill_idem.
Qed.

Lemma split_go_nonempty s cur : split_comma_go s cur <> [].
Proof.
  revert cur. induction s as [|c r IH]; intros cur; simpl; [discriminate|].
  destruct (chr_eqb c ","); [discriminate|apply IH].
Qed.

Lemma split_go_join s cur : join_comma (split_comma_go s cur) = (rev cur ++ s)%list.
Proof.
  revert cur. induction s as [|c r IH]; intros cur; simpl; [now rewrite app_nil_r|].
  destruct (chr_eqb c ",") eqn:E.
  - apply Ascii.eqb_eq in E. subst c.
    pose proof (split_go_nonempty r []) as Hne.
    destruct (split_comma_go r []) as [|x xs] eqn:Es; [contradiction|].
    change (join_comma (rev cur :: x :: xs)) with (rev cur ++ ","%char :: join_comma (x :: xs))%list.
    rewrite <- Es, IH. reflexivity.
  - rewrite IH. simpl. now rewrite <- app_assoc.
Qed.

Lemma split_go_no_comma s cur :
  no_comma cur -> Forall no_comma (split_comma_go s cur).
Proof.
  revert cur. induction s as [|c r IH]; intros cur Hc; simpl.
  - constructor; [|constructor]. intros H. apply Hc, in_rev, H.
  - destruct (chr_eqb c ",") eqn:E.
    + constructor; [intros H; apply Hc, in_rev, H|]. apply IH. intros [].
    + apply IH. intros [Ec|H]; [|exact (Hc H)]. subst c. discriminate E.
Qed.

Lemma split_go_app p rest cur :
  no_comma p -> split_comma_go (p ++ rest) cur = split_comma_go rest (rev p ++ cur).
Proof.
  revert cur. induction p as [|c p IH]; intros cur Hp; simpl; [reflexivity|].
  replace (chr_eqb c ",") with false.
  - rewrite IH by (intros H; apply Hp; now right). now rewrite <- app_assoc.
  - symmetry. apply Ascii.eqb_neq. intros ->. apply Hp. now left.
Qed.

Lemma split_go_of_join ps :
  ps <> [] -> Forall no_comma ps -> split_comma_go (join_comma ps) [] = ps.
Proof.
  induction ps as [|p [|q r] IH]; intros Hne Hf; [contradiction| |].
  - inversion Hf as [|? ? Hp _]. simpl.
    rewrite <- (app_nil_r p) at 1. rewrite split_go_app by exact Hp.
    simpl. now rewrite app_nil_r, rev_involutive.
  - inversion Hf as [|? ? Hp Hr]. subst.
    change (join_comma (p :: q :: r)) with (p ++ ","%char :: join_comma (q :: r))%list.
    rewrite split_go_app by exact Hp. simpl. rewrite app_nil_r, rev_involutive.
    f_equal. apply IH; [discriminate|exact Hr].
Qed.

Lemma lit_concat ps : lit (String.concat "," ps) = join_comma (map lit ps).
Proof.
  induction ps as [|p [|q r] IH]; [reflexivity|reflexivity|].
  change (String.concat "," (p :: q :: r)) with (p ++ "," ++ String.concat "," (q :: r))%string.
  rewrite !NoaaExtra.lit_app, IH. reflexivity.
Qed.

Lemma lit_inj x y : lit x = lit y -> x = y.
Proof.
  intros H. rewrite <- (string_of_list_ascii_of_string x), <- (string_of_list_ascii_of_string y).
  unfold lit in H. now rewrite H.
Qed.

Lemma map_lit_string_of qs : map lit (map string_of_list_ascii qs) = qs.
Proof.
  rewrite map_map. unfold lit.
  erewrite map_ext; [apply map_id|]. intros q. apply list_ascii_of_string_of_list_ascii.
Qed.

Lemma split_comma_concat s : String.concat "," (split_comma s) = s.
Proof.
  apply lit_inj. unfold split_comma. rewrite lit_concat, map_lit_string_of, split_go_join. reflexivity.
Qed.

Lemma split_comma_no_comma s : Forall (fun p => no_comma (lit p)) (split_comma s).
Proof.
  unfold split_comma. apply Forall_map.
  eapply Forall_impl; [|apply split_go_no_comma; intros []].
  intros q Hq. unfold lit. now rewrite list_ascii_of_string_of_list_ascii.
Qed.

Lemma split_comma_of_concat ps :
  ps <> [] -> Forall (fun p => no_comma (lit p)) ps -> split_comma (String.concat "," ps) = ps.
Proof.
  intros Hne Hf. unfold split_comma. rewrite lit_concat, split_go_of_join.
  - rewrite map_map. erewrite map_ext; [apply map_id|]. intros q. apply string_of_list_ascii_of_string.
  - destruct ps; [contradiction|discriminate].
  - now apply Forall_map.
Qed.

(** [s.split(",")] and [",".join] undo each other: joining the pieces
    gives the string back, the pieces hold no comma, and a non-empty list
    of comma-free strings is split back into itself. *)
Theorem split_comma_join s ps :
  String.concat "," (split_comma s) = s /\
  Forall (fun p => no_comma (lit p)) (split_comma s) /\
  (ps <> [] -> Forall (fun p => no_comma (lit p)) ps -> split_comma (String.concat "," ps) = ps).
Proof.
  split; [apply split_comma_concat|]. split; [apply split_comma_no_comma|].
  apply split_comma_of_concat.
Qed.

(** [--location] gives a point exactly when it is two comma-free pieces
    joined by one comma, each of which [float] reads. *)
Theorem location_pair_spec py_float l lat lon :
  location_pair py_float l = Some (lat, lon) <->
  exists x y, l = (x ++ "," ++ y)%string /\ no_comma (lit x) /\ no_comma (lit y) /\
    py_float x = Some lat /\ py_float y = Some lon.
Proof.
  unfold location_pair. split.
  - pose proof (split_comma_concat l) as Hc. pose proof (split_comma_no_comma l) as Hn.
    destruct (split_comma l) as [|x [|y [|z r]]]; try discriminate.
    destruct (py_float x) as [a|] eqn:Ex; [|discriminate].
    destruct (py_float y) as [b|] eqn:Ey; [|discriminate].
    intros [= <- <-]. inversion Hn as [|? ? Hx Hy]. inversion Hy as [|? ? Hy' _].
    exists x, y. repeat split; auto.
  - intros (x & y & -> & Hx & Hy & Ex & Ey).
    assert (Hf : Forall (fun p => no_comma (lit p)) [x; y]) by (constructor; [|constructor]; auto).
    change (x ++ "," ++ y)%string with (String.concat "," [x; y]).
    rewrite (split_comma_of_concat [x; y] ltac:(discriminate) Hf).
    now rewrite Ex, Ey.
Qed.

Lemma main_effects_one_storm_witness :
  let run := main None None (fun _ => Raise ReadError) (fun _ => None) (fun _ => Raise ReadError) true in
  exists d start df,
    build_storm (fun _ => Raise ReadError) (Q2R d) (Q2R 1) (Q2R 15) "huff_q2" None None start = Ok df /\
    Forall (effect_from example_args d df start) (fst (run example_args)).
Proof.
  intros run.
  assert (H1 : (0 < Q2R 1)%R) by (unfold Q2R; simpl; lra).
  assert (H15 : (0 < Q2R 15)%R) by (unfold Q2R; simpl; lra).
  destruct (build_beta (fun _ => Raise ReadError) (Q2R 2) (Q2R 1) (Q2R 15) "huff_q2" None None None 2 3
              H1 H15 eq_refl eq_refl eq_refl) as [df Hdf].
  assert (Hne : fst (run example_args) <> []).
  { unfold run. rewrite (main_after_resolve None None (fun _ => Raise ReadError) (fun _ => None)
                          (fun _ => Raise ReadError) true example_args example_args eq_refl).
    cbn -[build_storm Q2R]. rewrite Hdf. simpl. discriminate. }
  destruct (main_effects_one_storm None None (fun _ => Raise ReadError) (fun _ => None) (fun _ => Raise ReadError)
              true example_args Hne) as (d & start & df' & _ & _ & _ & Hb & Hf).
  exists d, start, df'. split; [exact Hb|exact Hf].
Defined.


End CliExtra.
